(** * agent-cli bridge: NDJSON framer, AgentSession and AgentServer

    A shallow embedding of [agent-cli/src/transport.ts], [session.ts],
    [server.ts] and [protocol.ts], followed by the properties of the bridge
    that the specification states about them.

    Conventions.
    - JavaScript text that is sliced, trimmed or searched (the framer) is a
      list of UTF-16 code units, as [String.prototype] sees it.  Text that is
      only compared, stored or concatenated (session ids, request ids, error
      messages) is a Rocq [string].
    - A JS [Map] is an insertion-ordered association list ([Map_get],
      [Map_set], [Map_delete]); the Broker's registry, whose order no
      operation below observes, is a [gmap].
    - What a socket delivers is bytes; [Buffer.toString("utf8")], like
      [JSON.parse] and [JSON.stringify], is a function of the platform and a
      parameter here.
    - An [async] method is split at its [await]s: each piece runs to
      completion, as on the JS event loop, and returns the effects it had
      (events sent, promises resolved, calls into the SDK). *)

From Stdlib Require Import NArith ZArith QArith Ascii String.
From Stdlib.Strings Require Import Byte.
From stdpp Require Import gmap strings list pretty.
From Equations Require Import Equations.

#[local] Set Warnings "-register-all".
Local Open Scope nat_scope.

(** ** JavaScript values *)

Module Js.

(** a string as its UTF-16 code units *)
Abbreviation jsstring := (list N).

(** a Node [Buffer] *)
Abbreviation Buffer := (list byte).

(** the code units of an ASCII literal *)
Fixpoint lit (s : string) : jsstring :=
  match s with
  | EmptyString => []
  | String c s' => N_of_ascii c :: lit s'
  end.

(** the line feed, ["\n"] *)
Definition LF : N := 10%N.

(** [s.indexOf(c)] for a one-unit needle; [None] is JS's [-1] *)
Fixpoint indexOf (c : N) (s : jsstring) : option nat :=
  match s with
  | [] => None
  | x :: s' => if N.eqb x c then Some 0 else S <$> indexOf c s'
  end.

(** [s.slice(from)] and [s.slice(0, to)], for indices within range or
    beyond the end (never negative here) *)
Definition slice_from (from : nat) (s : jsstring) : jsstring := drop from s.
Definition slice_to (to : nat) (s : jsstring) : jsstring := take to s.

(** ECMAScript WhiteSpace and LineTerminator, what [trim] strips *)
Definition isWhiteSpace (c : N) : bool :=
  (N.eqb c 9 || N.eqb c 10 || N.eqb c 11 || N.eqb c 12 || N.eqb c 13
   || N.eqb c 32 || N.eqb c 160 || N.eqb c 5760
   || (N.leb 8192 c && N.leb c 8202)
   || N.eqb c 8232 || N.eqb c 8233 || N.eqb c 8239 || N.eqb c 8287
   || N.eqb c 12288 || N.eqb c 65279)%N.

Fixpoint trimStart (s : jsstring) : jsstring :=
  match s with
  | [] => []
  | c :: s' => if isWhiteSpace c then trimStart s' else s
  end.

Definition trimEnd (s : jsstring) : jsstring := rev (trimStart (rev s)).

Definition trim (s : jsstring) : jsstring := trimEnd (trimStart s).

(** *** An insertion-ordered map (JS [Map], and the own properties of a
    plain object whose keys are not array indices) *)
Section OrderedMap.
Context {K V : Type} `{EqDecision K}.

Fixpoint Map_get (k : K) (m : list (K * V)) : option V :=
  match m with
  | [] => None
  | (k', v) :: m' => if decide (k' = k) then Some v else Map_get k m'
  end.

(** [set] keeps the position of a key that is already there *)
Fixpoint Map_set (k : K) (v : V) (m : list (K * V)) : list (K * V) :=
  match m with
  | [] => [(k, v)]
  | (k', v') :: m' =>
      if decide (k' = k) then (k, v) :: m' else (k', v') :: Map_set k v m'
  end.

Definition Map_delete (k : K) (m : list (K * V)) : list (K * V) :=
  filter (λ kv, kv.1 ≠ k) m.

Definition Map_clear (m : list (K * V)) : list (K * V) := [].
End OrderedMap.

(** a JSON value: what [unknown] payloads (tool input, deltas, tool
    output) are at run time *)
Inductive Json :=
| JNull
| JBool (b : bool)
| JNum (q : Q)
| JStr (s : string)
| JArr (items : list Json)
| JObj (props : list (string * Json)).

(** [Record<string, unknown>] *)
Abbreviation JsRecord := (list (string * Json)).

End Js.

(** ** transport.ts: the NDJSON framer *)

Module NdjsonTransport.
Import Js.

(** the side of [net.Socket] the transport uses *)
Record Socket := {
  destroyed : bool;
  ended : bool;             (* [socket.end()] was called *)
  written : list jsstring;  (* the arguments of [socket.write], oldest first *)
}.

Record Transport := {
  buffer : jsstring;
  socket : Socket;
}.

Definition new_Transport (sock : Socket) : Transport :=
  {| buffer := []; socket := sock |}.

Definition inspect {A} (a : A) : {b | a = b} := exist _ a eq_refl.

Lemma indexOf_lt c s i : indexOf c s = Some i → i < length s.
Proof.
  revert i; induction s as [|x s IH]; intros i; simpl; [done|].
  destruct (N.eqb x c); [intros [= <-]; lia|].
  destruct (indexOf c s) as [j|]; simpl; [|done].
  intros [= <-]. specialize (IH j eq_refl). lia.
Qed.

Section Codec.
(** [J] is the type of parsed values; [JSON_parse] is [JSON.parse],
    [None] when it throws; [JSON_stringify] is [JSON.stringify];
    [toString_utf8] is [Buffer.toString("utf8")], the text that a buffer
    decodes to on its own. *)
Context {J : Type}.
Variable JSON_parse : jsstring → option J.
Variable JSON_stringify : J → jsstring.
Variable toString_utf8 : Buffer → jsstring.

(** what a transport emits to its listeners *)
Inductive TransportEvent :=
| message (msg : J)
| error (err : jsstring)   (* the [message] of the [Error] *)
| close.

(** the body of the [while] loop of [onData], for one trimmed line *)
Definition emit_line (line : jsstring) : list TransportEvent :=
  if decide (0 < length line) then
    match JSON_parse line with
    | Some v => [message v]
    | None => [error (lit "Invalid JSON: " ++ slice_to 200 line)]
    end
  else [].

(** the [while] loop of [onData]: the events emitted, in order, and the
    buffer that is left *)
Equations? drain (buffer : jsstring) : list TransportEvent * jsstring
  by wf (length buffer) lt :=
  drain buffer with inspect (indexOf LF buffer) => {
    | exist _ None _ => ([], buffer)
    | exist _ (Some newlineIndex) Hidx =>
        let line := trim (slice_to newlineIndex buffer) in
        let '(evs, b) := drain (slice_from (newlineIndex + 1) buffer) in
        (emit_line line ++ evs, b) }.
Proof.
  apply indexOf_lt in Hidx. unfold slice_from. rewrite length_drop. lia.
Qed.

(** [onData(chunk)] *)
Definition onData (t : Transport) (chunk : Buffer)
  : list TransportEvent * Transport :=
  let '(evs, b) := drain (buffer t ++ toString_utf8 chunk) in
  (evs, {| buffer := b; socket := socket t |}).

(** [send(msg)] *)
Definition send (t : Transport) (msg : J) : Transport :=
  if negb (destroyed (socket t)) then
    {| buffer := buffer t;
       socket := {| destroyed := destroyed (socket t);
                    ended := ended (socket t);
                    written := written (socket t)
                                 ++ [JSON_stringify msg ++ [LF]] |} |}
  else t.

(** [close()] *)
Definition close_transport (t : Transport) : Transport :=
  {| buffer := buffer t;
     socket := {| destroyed := destroyed (socket t);
                  ended := true;
                  written := written (socket t) |} |}.

(** the socket delivering a sequence of chunks, one [data] event each *)
Fixpoint feed (t : Transport) (chunks : list Buffer)
  : list TransportEvent * Transport :=
  match chunks with
  | [] => ([], t)
  | c :: cs =>
      let '(evs, t1) := onData t c in
      let '(evs', t2) := feed t1 cs in
      (evs ++ evs', t2)
  end.

(** the text that a sequence of chunks brings: each chunk is decoded on
    its own *)
Definition received (chunks : list Buffer) : jsstring :=
  concat (toString_utf8 <$> chunks).

(** *** Streams of segments *)

(** what the framer makes of one segment *)
Inductive Segment :=
| blank_segment (l : jsstring)
| valid_segment (l : jsstring) (v : J)
| malformed_segment (l : jsstring).

Definition segment_text (g : Segment) : jsstring :=
  match g with
  | blank_segment l | valid_segment l _ | malformed_segment l => l
  end.

(** the text of a sequence of segments, each followed by the delimiter *)
Fixpoint wire (segments : list Segment) : jsstring :=
  match segments with
  | [] => []
  | g :: segments' => segment_text g ++ LF :: wire segments'
  end.

(** a segment holds no delimiter, and is blank, parses, or fails to
    parse once trimmed, as its kind says *)
Definition segment_ok (g : Segment) : Prop :=
  (LF ∉ segment_text g) ∧
  match g with
  | blank_segment l => trim l = []
  | valid_segment l v => trim l ≠ [] ∧ JSON_parse (trim l) = Some v
  | malformed_segment l => trim l ≠ [] ∧ JSON_parse (trim l) = None
  end.

Definition segment_events (g : Segment) : list TransportEvent :=
  match g with
  | blank_segment _ => []
  | valid_segment _ v => [message v]
  | malformed_segment l =>
      [error (lit "Invalid JSON: " ++ slice_to 200 (trim l))]
  end.

Definition parsed (g : Segment) : option J :=
  match g with
  | valid_segment _ v => Some v
  | _ => None
  end.

Definition is_malformed (g : Segment) : bool :=
  match g with
  | malformed_segment _ => true
  | _ => false
  end.

Definition is_message (e : TransportEvent) : bool :=
  match e with message _ => true | _ => false end.

Definition is_error (e : TransportEvent) : bool :=
  match e with error _ => true | _ => false end.

End Codec.

Arguments TransportEvent : clear implicits.
Arguments close {J}.
Arguments error {J} err.
Arguments Segment : clear implicits.
Arguments blank_segment {J} l.
Arguments valid_segment {J} l v.
Arguments malformed_segment {J} l.

End NdjsonTransport.

(** ** protocol.ts: the message types *)

Module Protocol.
Import Js.

Inductive PermissionMode := pm_default | pm_acceptEdits | pm_bypassPermissions | pm_plan.
Inductive SettingSource := src_user | src_project | src_local.
Inductive Behavior := allow | deny.
Inductive SessionStatus :=
  started | idle | processing | closed | status_error.

Record StartSessionConfig := {
  cfg_sessionId : string;
  cfg_cwd : string;
  cfg_prompt : string;
  cfg_systemPrompt : option string;
  cfg_model : option string;
  cfg_permissionMode : option PermissionMode;
  cfg_allowedTools : option (list string);
  cfg_settingSources : option (list SettingSource);
}.

(** Desktop App → CLI.  Optional fields are [option]s: [None] is a field
    that is absent (or [null], which [??] treats alike). *)
Inductive InboundMessage :=
| StartSessionMessage (config : StartSessionConfig)
| SendPromptMessage (sessionId prompt : string)
| ResumeSessionMessage (sessionId claudeSessionId prompt cwd : string)
| PermissionResponseMessage (sessionId requestId : string)
    (behavior : Behavior) (updatedInput : option JsRecord)
    (message : option string)
| QuestionResponseMessage (sessionId requestId : string)
    (answers : list (string * string))
| InterruptMessage (sessionId : string)
| CloseSessionMessage (sessionId : string).

(** CLI → Desktop App *)
Inductive OutboundMessage :=
| AssistantTextEvent (sessionId uuid text : string)
| ToolUseEvent (sessionId uuid toolName : string) (toolInput : Json)
    (toolUseId : string)
| ToolResultEvent (sessionId uuid toolUseId : string) (output : Json)
    (isError : bool)
| PermissionRequestEvent (sessionId requestId toolName : string)
    (toolInput : Json) (toolUseId : string) (suggestions : option (list Json))
| QuestionEvent (sessionId requestId : string) (questions : option Json)
| SystemEvent (sessionId subtype claudeSessionId : string)
    (tools : option (list string)) (model cwd : option string)
| ResultEvent (sessionId subtype : string) (isError : bool)
    (result : option string) (totalCostUsd : Q) (durationMs numTurns : Z)
    (errors : option (list string))
| StreamDeltaEvent (sessionId uuid : string) (delta : Json)
| ErrorEvent (sessionId error : string) (code : option string)
| SessionStatusEvent (sessionId : string) (status : SessionStatus).

Definition in_sessionId (msg : InboundMessage) : string :=
  match msg with
  | StartSessionMessage config => cfg_sessionId config
  | SendPromptMessage sid _ | ResumeSessionMessage sid _ _ _
  | PermissionResponseMessage sid _ _ _ _ | QuestionResponseMessage sid _ _
  | InterruptMessage sid | CloseSessionMessage sid => sid
  end.

(** the [sessionId] every outbound message carries *)
Definition out_sessionId (msg : OutboundMessage) : string :=
  match msg with
  | AssistantTextEvent sid _ _ | ToolUseEvent sid _ _ _ _
  | ToolResultEvent sid _ _ _ _ | PermissionRequestEvent sid _ _ _ _ _
  | QuestionEvent sid _ _ | SystemEvent sid _ _ _ _ _
  | ResultEvent sid _ _ _ _ _ _ _ | StreamDeltaEvent sid _ _
  | ErrorEvent sid _ _ | SessionStatusEvent sid _ => sid
  end.

End Protocol.

(** ** session.ts: one conversation *)

Module AgentSession.
Import Js Protocol.

(** *** The SDK side *)

(** the handle of a [Query] object returned by [query()] *)
Definition Query := nat.
(** the handle of a [Promise<PermissionResult>] made by [handleCanUseTool] *)
Definition Deferred := nat.

Inductive PermissionResult :=
| Allow (updatedInput : JsRecord)
| Deny (message : string).

Inductive SystemPrompt :=
| prompt_text (s : string)
| preset_claude_code.

(** [Options], less [canUseTool], which every call below binds to the
    session's own [handleCanUseTool] *)
Record Options := {
  opt_cwd : string;
  opt_model : option string;
  opt_permissionMode : option PermissionMode;
  opt_allowedTools : option (list string);
  opt_settingSources : option (list SettingSource);
  opt_systemPrompt : option SystemPrompt;
  opt_includePartialMessages : bool;
  opt_resume : option string;
}.

Inductive ContentBlock :=
| text_block (text : string)
| tool_use_block (id name : string) (input : option Json)
| tool_result_block (tool_use_id : string) (content : option Json)
    (is_error : option bool)
| other_block.

Inductive SDKMessage :=
| SDKSystemMessage (subtype session_id : string)
    (tools : option (list string)) (model cwd : option string)
| SDKAssistantMessage (uuid : string) (content : option (list ContentBlock))
    (* [None]: [content] is not an array *)
| SDKResultMessage (subtype : string) (is_error : bool)
    (result : option string) (total_cost_usd : Q) (duration_ms num_turns : Z)
    (errors : option (list string))
| SDKPartialAssistantMessage (uuid : string) (event : Json)
| SDKUserMessage
| SDKOtherMessage.

(** a thrown value: an [Error] with its message, or anything else, given
    by what [String(err)] makes of it *)
Inductive Thrown :=
| Error (message : string)
| NonError (asString : string).

(** what [query(...)] does when called *)
Inductive QueryResult :=
| Created (q : Query)
| Raised (err : Thrown).

(** what awaiting the next item of the query's iterator gives *)
Inductive IterResult :=
| Yield (msg : SDKMessage)
| Return
| Reject (err : Thrown).

Record CanUseToolOpts := {
  suggestions : option (list Json);
  toolUseID : string;
}.

(** *** The session object *)

Record PendingRequest := {
  resolve : Deferred;
  toolInput : JsRecord;
}.

(** where [sendToClient] delivers: the server binds it to a transport's
    [send], CLI mode to the terminal and a broadcast *)
Inductive Sink :=
| to_transport (t : nat)
| to_cli.

Record AgentSession := {
  sessionId : string;
  sendToClient : Sink;
  activeQuery : option Query;
  claudeSessionId : option string;
  pendingRequests : list (string * PendingRequest);
  requestCounter : N;
  lastCwd : string;
}.

(** [new AgentSession(sessionId, sendToClient)]; [process_cwd] is
    [process.cwd()] *)
Definition new_AgentSession (sid : string) (sink : Sink)
    (process_cwd : string) : AgentSession :=
  {| sessionId := sid; sendToClient := sink; activeQuery := None;
     claudeSessionId := None; pendingRequests := [];
     requestCounter := 0; lastCwd := process_cwd |}.

Definition set_activeQuery (q : option Query) (s : AgentSession) :=
  {| sessionId := sessionId s; sendToClient := sendToClient s;
     activeQuery := q; claudeSessionId := claudeSessionId s;
     pendingRequests := pendingRequests s;
     requestCounter := requestCounter s; lastCwd := lastCwd s |}.

Definition set_claudeSessionId (c : option string) (s : AgentSession) :=
  {| sessionId := sessionId s; sendToClient := sendToClient s;
     activeQuery := activeQuery s; claudeSessionId := c;
     pendingRequests := pendingRequests s;
     requestCounter := requestCounter s; lastCwd := lastCwd s |}.

Definition set_pendingRequests (p : list (string * PendingRequest))
    (s : AgentSession) :=
  {| sessionId := sessionId s; sendToClient := sendToClient s;
     activeQuery := activeQuery s; claudeSessionId := claudeSessionId s;
     pendingRequests := p;
     requestCounter := requestCounter s; lastCwd := lastCwd s |}.

Definition set_requestCounter (n : N) (s : AgentSession) :=
  {| sessionId := sessionId s; sendToClient := sendToClient s;
     activeQuery := activeQuery s; claudeSessionId := claudeSessionId s;
     pendingRequests := pendingRequests s;
     requestCounter := n; lastCwd := lastCwd s |}.

Definition set_lastCwd (d : string) (s : AgentSession) :=
  {| sessionId := sessionId s; sendToClient := sendToClient s;
     activeQuery := activeQuery s; claudeSessionId := claudeSessionId s;
     pendingRequests := pendingRequests s;
     requestCounter := requestCounter s; lastCwd := d |}.

(** *** Effects and the monad of a method body *)

Inductive Effect :=
| Send (msg : OutboundMessage)                     (* [this.sendToClient(msg)] *)
| Resolve (d : Deferred) (r : PermissionResult)    (* [pending.resolve(r)] *)
| CallQuery (prompt : string) (options : Options)  (* [query({prompt, options})] *)
| QueryInterrupt (q : Query)                       (* [q.interrupt()] *)
| QueryClose (q : Query).                          (* [q.close()] *)

(** how a piece of a method body ends: normally, by throwing, or
    suspended at an [await] *)
Inductive Completion (A : Type) :=
| Normal (a : A)
| Throw (err : Thrown)
| Await.
Arguments Normal {A} a.
Arguments Throw {A} err.
Arguments Await {A}.

Definition M (A : Type) : Type :=
  AgentSession → Completion A * AgentSession * list Effect.

Definition ret {A} (a : A) : M A := λ s, (Normal a, s, []).

Definition bind {A B} (m : M A) (k : A → M B) : M B := λ s,
  match m s with
  | (Normal a, s1, e1) => let '(c, s2, e2) := k a s1 in (c, s2, e1 ++ e2)
  | (Throw err, s1, e1) => (Throw err, s1, e1)
  | (Await, s1, e1) => (Await, s1, e1)
  end.

Declare Scope session_scope.
Delimit Scope session_scope with session.
Notation "'let*' x ':=' m 'in' k" := (bind m (λ x, k))
  (at level 10, x name, m at level 100, k at level 200) : session_scope.
Notation "m ';;' k" := (bind m (λ _, k))
  (at level 100, k at level 200, right associativity) : session_scope.
Local Open Scope session_scope.

Definition this : M AgentSession := λ s, (Normal s, s, []).
Definition update (f : AgentSession → AgentSession) : M unit :=
  λ s, (Normal tt, f s, []).
Definition effect (e : Effect) : M unit := λ s, (Normal tt, s, [e]).
Definition throw {A} (err : Thrown) : M A := λ s, (Throw err, s, []).
Definition await {A} : M A := λ s, (Await, s, []).

(** [try { body } catch (err) { handler } finally { fin }]; a body that is
    suspended at an [await] has not left the [try] *)
Definition try_catch_finally (body : M unit) (handler : Thrown → M unit)
    (fin : M unit) : M unit := λ s,
  match body s with
  | (Normal _, s1, e1) => let '(c, s2, e2) := fin s1 in (c, s2, e1 ++ e2)
  | (Throw err, s1, e1) =>
      let '(c2, s2, e2) := handler err s1 in
      let '(c3, s3, e3) := fin s2 in
      (match c3 with Normal _ => c2 | _ => c3 end, s3, e1 ++ e2 ++ e3)
  | (Await, s1, e1) => (Await, s1, e1)
  end.

(** [for (const x of xs) body] *)
Fixpoint for_of {A} (xs : list A) (body : A → M unit) : M unit :=
  match xs with
  | [] => ret tt
  | x :: xs' => body x ;; for_of xs' body
  end.

Definition send (msg : OutboundMessage) : M unit := effect (Send msg).

(** *** The methods *)

(** [++this.requestCounter] on a JS number: exact below 2^53, where
    adding one no longer changes the value *)
Definition incr (n : N) : N := if (n <? 2 ^ 53)%N then (n + 1)%N else n.

(** [err instanceof Error ? err.message : String(err)] *)
Definition error_text (err : Thrown) : string :=
  match err with
  | Error m => m
  | NonError str => str
  end.

(** [!this.claudeSessionId]: [null] and the empty string are falsy *)
Definition falsy (c : option string) : bool :=
  match c with
  | None => true
  | Some id => String.eqb id EmptyString
  end.

Definition handleSystemMessage (subtype session_id : string)
    (tools : option (list string)) (model cwd : option string) : M unit :=
  let* s := this in
  update (set_claudeSessionId (Some session_id)) ;;
  send (SystemEvent (sessionId s) subtype session_id tools model cwd).

(** the loop over the content blocks, with [textParts] as it grows *)
Fixpoint forward_blocks (uuid : string) (content : list ContentBlock)
    (textParts : list string) : M (list string) :=
  match content with
  | [] => ret textParts
  | block :: content' =>
      let* s := this in
      match block with
      | text_block text =>
          forward_blocks uuid content' (textParts ++ [text])
      | tool_use_block id name input =>
          send (ToolUseEvent (sessionId s) uuid name
                  (default (JObj []) input) id) ;;
          forward_blocks uuid content' textParts
      | tool_result_block tool_use_id content is_error =>
          send (ToolResultEvent (sessionId s) uuid tool_use_id
                  (default JNull content) (default false is_error)) ;;
          forward_blocks uuid content' textParts
      | other_block => forward_blocks uuid content' textParts
      end
  end.

Definition join (parts : list string) : string :=
  foldr String.append EmptyString parts.

Definition handleAssistantMessage (uuid : string)
    (content : option (list ContentBlock)) : M unit :=
  match content with
  | None => ret tt
  | Some content =>
      let* textParts := forward_blocks uuid content [] in
      let* s := this in
      if decide (0 < length textParts) then
        send (AssistantTextEvent (sessionId s) uuid (join textParts))
      else ret tt
  end.

Definition handleResultMessage (subtype : string) (is_error : bool)
    (result : option string) (total_cost_usd : Q) (duration_ms num_turns : Z)
    (errors : option (list string)) : M unit :=
  let* s := this in
  send (ResultEvent (sessionId s) subtype is_error result total_cost_usd
          duration_ms num_turns errors).

Definition handleStreamEvent (uuid : string) (event : Json) : M unit :=
  let* s := this in
  send (StreamDeltaEvent (sessionId s) uuid event).

Definition forwardMessage (msg : SDKMessage) : M unit :=
  match msg with
  | SDKSystemMessage subtype session_id tools model cwd =>
      handleSystemMessage subtype session_id tools model cwd
  | SDKAssistantMessage uuid content => handleAssistantMessage uuid content
  | SDKResultMessage subtype is_error result cost duration turns errors =>
      handleResultMessage subtype is_error result cost duration turns errors
  | SDKPartialAssistantMessage uuid event => handleStreamEvent uuid event
  | SDKUserMessage => ret tt
  | SDKOtherMessage => ret tt
  end.

(** the [catch] and [finally] blocks of [runQuery] *)
Definition runQuery_catch (err : Thrown) : M unit :=
  let* s := this in
  send (ErrorEvent (sessionId s) (error_text err) None).

Definition runQuery_finally : M unit :=
  update (set_activeQuery None) ;;
  let* s := this in
  send (SessionStatusEvent (sessionId s) idle).

(** [query({prompt, options})], answering [qr] *)
Definition query (prompt : string) (options : Options) (qr : QueryResult)
    : M Query :=
  effect (CallQuery prompt options) ;;
  match qr with
  | Created q => ret q
  | Raised err => throw err
  end.

(** [runQuery], from its entry to the first [await] of the [for await] *)
Definition runQuery (prompt : string) (options : Options) (qr : QueryResult)
    : M unit :=
  let* s := this in
  send (SessionStatusEvent (sessionId s) processing) ;;
  try_catch_finally
    (let* q := query prompt options qr in
     update (set_activeQuery (Some q)) ;;
     await)
    runQuery_catch
    runQuery_finally.

(** [runQuery], resumed inside the [for await] by the next item of the
    iterator: a message is forwarded and the loop awaits again, the end
    of the iteration leaves the [try], a rejection is thrown in it *)
Definition runQuery_next (item : IterResult) : M unit :=
  try_catch_finally
    match item with
    | Yield msg => forwardMessage msg ;; await
    | Return => ret tt
    | Reject err => throw err
    end
    runQuery_catch
    runQuery_finally.

Definition start (config : StartSessionConfig) (qr : QueryResult) : M unit :=
  update (set_lastCwd (cfg_cwd config)) ;;
  let* s := this in
  send (SessionStatusEvent (sessionId s) started) ;;
  let options :=
    {| opt_cwd := cfg_cwd config;
       opt_model := cfg_model config;
       opt_permissionMode := cfg_permissionMode config;
       opt_allowedTools := cfg_allowedTools config;
       opt_settingSources :=
         Some (default [src_project] (cfg_settingSources config));
       opt_systemPrompt :=
         Some (from_option prompt_text preset_claude_code
                 (cfg_systemPrompt config));
       opt_includePartialMessages := true;
       opt_resume := None |} in
  runQuery (cfg_prompt config) options qr.

Definition sendPrompt (prompt : string) (qr : QueryResult) : M unit :=
  let* s := this in
  if falsy (claudeSessionId s) then
    send (ErrorEvent (sessionId s) "No active session to send prompt to" None)
  else
    let options :=
      {| opt_cwd := lastCwd s;
         opt_model := None; opt_permissionMode := None;
         opt_allowedTools := None; opt_settingSources := None;
         opt_systemPrompt := None;
         opt_includePartialMessages := true;
         opt_resume := claudeSessionId s |} in
    runQuery prompt options qr.

Definition resume (claudeSessionId prompt cwd : string) (qr : QueryResult)
    : M unit :=
  update (set_lastCwd cwd) ;;
  let options :=
    {| opt_cwd := cwd;
       opt_model := None; opt_permissionMode := None;
       opt_allowedTools := None; opt_settingSources := None;
       opt_systemPrompt := None;
       opt_includePartialMessages := true;
       opt_resume := Some claudeSessionId |} in
  runQuery prompt options qr.

Definition interrupt : M unit :=
  let* s := this in
  match activeQuery s with
  | Some q => effect (QueryInterrupt q) ;; await
  | None => ret tt
  end.

Definition close : M unit :=
  let* s := this in
  match activeQuery s with
  | Some q => effect (QueryClose q) ;; update (set_activeQuery None)
  | None => ret tt
  end ;;
  let* s := this in
  for_of (pendingRequests s) (λ entry,
    effect (Resolve (resolve entry.2) (Deny "Session closed"))) ;;
  update (λ s, set_pendingRequests (Map_clear (pendingRequests s)) s) ;;
  let* s := this in
  send (SessionStatusEvent (sessionId s) closed).

Definition resolvePermission (requestId : string) (behavior : Behavior)
    (updatedInput : option JsRecord) (message : option string) : M unit :=
  let* s := this in
  match Map_get requestId (pendingRequests s) with
  | None => ret tt
  | Some pending =>
      update (set_pendingRequests (Map_delete requestId (pendingRequests s))) ;;
      match behavior with
      | allow =>
          effect (Resolve (resolve pending)
                    (Allow (default (toolInput pending) updatedInput)))
      | deny =>
          effect (Resolve (resolve pending)
                    (Deny (default "Denied by user" message)))
      end
  end.

(** [answers] as the JSON object it is *)
Definition answers_json (answers : list (string * string)) : Json :=
  JObj (prod_map id JStr <$> answers).

Definition resolveQuestion (requestId : string)
    (answers : list (string * string)) : M unit :=
  let* s := this in
  match Map_get requestId (pendingRequests s) with
  | None => ret tt
  | Some pending =>
      update (set_pendingRequests (Map_delete requestId (pendingRequests s))) ;;
      effect (Resolve (resolve pending)
                (Allow (Map_set "answers" (answers_json answers)
                          (toolInput pending))))
  end.

(** the decision callback; [d] is the promise that [new Promise] makes
    and the method returns *)
Definition handleCanUseTool (toolName : string) (input : JsRecord)
    (opts : CanUseToolOpts) (d : Deferred) : M Deferred :=
  update (λ s, set_requestCounter (incr (requestCounter s)) s) ;;
  let* s := this in
  let requestId := "req_" +:+ pretty (requestCounter s) in
  (if String.eqb toolName "AskUserQuestion" then
     send (QuestionEvent (sessionId s) requestId (Map_get "questions" input))
   else
     send (PermissionRequestEvent (sessionId s) requestId toolName
             (JObj input) (toolUseID opts) (suggestions opts))) ;;
  update (λ s, set_pendingRequests
                 (Map_set requestId {| resolve := d; toolInput := input |}
                    (pendingRequests s)) s) ;;
  ret d.

(** *** The session as a state machine *)

(** everything that can enter a session: a method called by the Broker
    or the CLI, the SDK calling back, the iterator of a running query
    delivering its next item *)
Inductive Call :=
| call_start (config : StartSessionConfig) (qr : QueryResult)
| call_sendPrompt (prompt : string) (qr : QueryResult)
| call_resume (claudeSessionId prompt cwd : string) (qr : QueryResult)
| call_interrupt
| call_close
| call_resolvePermission (requestId : string) (behavior : Behavior)
    (updatedInput : option JsRecord) (message : option string)
| call_resolveQuestion (requestId : string) (answers : list (string * string))
| engine_canUseTool (toolName : string) (input : JsRecord)
    (opts : CanUseToolOpts) (d : Deferred)
| engine_next (item : IterResult).

Definition enter (c : Call) : M unit :=
  match c with
  | call_start config qr => start config qr
  | call_sendPrompt prompt qr => sendPrompt prompt qr
  | call_resume csid prompt cwd qr => resume csid prompt cwd qr
  | call_interrupt => interrupt
  | call_close => close
  | call_resolvePermission rid b u m => resolvePermission rid b u m
  | call_resolveQuestion rid answers => resolveQuestion rid answers
  | engine_canUseTool name input opts d =>
      handleCanUseTool name input opts d ;; ret tt
  | engine_next item => runQuery_next item
  end.

(** one entry, run until it returns or suspends *)
Definition step (c : Call) (s : AgentSession)
    : AgentSession * list Effect :=
  let '(_, s', effs) := enter c s in (s', effs).

(** a sequence of entries, in the order the event loop runs them *)
Fixpoint run (cs : list Call) (s : AgentSession)
    : AgentSession * list Effect :=
  match cs with
  | [] => (s, [])
  | c :: cs' =>
      let '(s1, e1) := step c s in
      let '(s2, e2) := run cs' s1 in
      (s2, e1 ++ e2)
  end.

(** *** Reading calls and effects *)

(** [c] is [resolvePermission] or [resolveQuestion] for [requestId] *)
Definition resolves (requestId : string) (c : Call) : Prop :=
  match c with
  | call_resolvePermission rid _ _ _ | call_resolveQuestion rid _ =>
      rid = requestId
  | _ => False
  end.

(** in [c], entered in state [s], the engine raises [err]: [query()]
    throws when [start], [resume] or a [sendPrompt] that gets that far
    calls it, or the iterator of the running query rejects *)
Definition raises (s : AgentSession) (c : Call) (err : Thrown) : Prop :=
  match c with
  | call_start _ (Raised e) | call_resume _ _ _ (Raised e)
  | engine_next (Reject e) => e = err
  | call_sendPrompt _ (Raised e) =>
      falsy (claudeSessionId s) = false ∧ e = err
  | _ => False
  end.

(** [c] is not [close], a resolution or the decision callback: the calls
    that have no business with the pending requests *)
Definition leaves_pending (c : Call) : bool :=
  match c with
  | call_close | call_resolvePermission _ _ _ _ | call_resolveQuestion _ _
  | engine_canUseTool _ _ _ _ => false
  | _ => true
  end.

(** every event among some effects carries the session id [sid] *)
Definition scoped_to (sid : string) (effs : list Effect) : Prop :=
  Forall (λ e, match e with
               | Send msg => out_sessionId msg = sid
               | _ => True
               end) effs.

(** the id that the [n]th decision callback of a session gives out *)
Definition request_id (n : N) : string := "req_" +:+ pretty n.

(** every id in the table of pending requests was given out by the
    session *)
Definition issued (s : AgentSession) : Prop :=
  ∀ k v, (k, v) ∈ pendingRequests s →
    ∃ n, k = request_id n ∧ (n ≤ requestCounter s)%N.

(** [id] was given out by the session and is no longer pending *)
Definition retired (s : AgentSession) (id : string) : Prop :=
  Map_get id (pendingRequests s) = None
  ∧ ∃ n, id = request_id n ∧ (n ≤ requestCounter s)%N.

(** the [session_status] events among some effects, in order *)
Definition statuses (effs : list Effect) : list SessionStatus :=
  omap (λ e, match e with
             | Send (SessionStatusEvent _ st) => Some st
             | _ => None
             end) effs.

(** the promises resolved by some effects, in order *)
Definition resolved (effs : list Effect) : list Deferred :=
  omap (λ e, match e with Resolve d _ => Some d | _ => None end) effs.

(** the promises made during some calls, in order *)
Definition created (cs : list Call) : list Deferred :=
  omap (λ c, match c with
             | engine_canUseTool _ _ _ d => Some d
             | _ => None
             end) cs.

(** the promises of the pending requests *)
Definition parked (s : AgentSession) : list Deferred :=
  (λ entry, resolve entry.2) <$> pendingRequests s.

End AgentSession.

(** ** server.ts: the Broker *)

Module AgentServer.
Import Js Protocol AgentSession.

(** The server and the objects it refers to.  [sessions] maps a session
    id to the address of an [AgentSession] object and [objects] is the
    store of those objects: an object that the registry no longer refers
    to still exists, and its running query still drives it. *)
Record World := {
  sessions : gmap string nat;        (* [Map<string, AgentSession>] *)
  transports : gset nat;             (* [Set<NdjsonTransport>] *)
  objects : gmap nat AgentSession;
  process_cwd : string;              (* [process.cwd()] *)
}.

Definition set_sessions (m : gmap string nat) (w : World) : World :=
  {| sessions := m; transports := transports w; objects := objects w;
     process_cwd := process_cwd w |}.

Definition set_objects (o : gmap nat AgentSession) (w : World) : World :=
  {| sessions := sessions w; transports := transports w; objects := o;
     process_cwd := process_cwd w |}.

Definition set_transports (ts : gset nat) (w : World) : World :=
  {| sessions := sessions w; transports := ts; objects := objects w;
     process_cwd := process_cwd w |}.

Inductive ServerEffect :=
| transport_send (transport : nat) (msg : OutboundMessage)
    (* the server's own [transport.send(msg)] *)
| console_error (line : string)
| session_effect (ref : nat) (sink : Sink) (e : Effect).
    (* an effect of the session object at [ref], whose [sendToClient]
       is [sink] *)

(** a method of the session object at [ref], run until it returns or
    suspends *)
Definition call_session (ref : nat) (c : Call) (w : World)
    : World * list ServerEffect :=
  match objects w !! ref with
  | Some s =>
      let '(s', effs) := step c s in
      (set_objects (<[ref := s']> (objects w)) w,
       session_effect ref (sendToClient s) <$> effs)
  | None => (w, [])
  end.

(** [new AgentSession(sessionId, (outMsg) => transport.send(outMsg))] *)
Definition new_session (sessionId : string) (transport : nat) (w : World)
    : nat * World :=
  let ref := fresh (dom (objects w)) in
  (ref,
   set_objects
     (<[ref := new_AgentSession sessionId (to_transport transport)
                 (process_cwd w)]> (objects w)) w).

Definition registerSession (sessionId : string) (ref : nat) (w : World)
    : World :=
  set_sessions (<[sessionId := ref]> (sessions w)) w.

Definition getSession (sessionId : string) (w : World)
    : option nat * list ServerEffect :=
  match sessions w !! sessionId with
  | Some ref => (Some ref, [])
  | None =>
      (None,
       [console_error ("[server] session '" +:+ sessionId +:+ "' not found")])
  end.

(** [this.getSession(id)?.method(...)] *)
Definition with_session (sessionId : string) (c : Call) (w : World)
    : World * list ServerEffect :=
  match getSession sessionId w with
  | (Some ref, logged) =>
      let '(w', effs) := call_session ref c w in (w', logged ++ effs)
  | (None, logged) => (w, logged)
  end.

Definition startSession (config : StartSessionConfig) (transport : nat)
    (qr : QueryResult) (w : World) : World * list ServerEffect :=
  let sid := cfg_sessionId config in
  if decide (is_Some (sessions w !! sid)) then
    (w, [transport_send transport
           (ErrorEvent sid ("Session '" +:+ sid +:+ "' already exists") None)])
  else
    let '(ref, w1) := new_session sid transport w in
    let w2 := set_sessions (<[sid := ref]> (sessions w1)) w1 in
    call_session ref (call_start config qr) w2.

Definition resumeSession (sessionId claudeSessionId prompt cwd : string)
    (transport : nat) (qr : QueryResult) (w : World)
    : World * list ServerEffect :=
  let '(ref, w1) := new_session sessionId transport w in
  let w2 := set_sessions (<[sessionId := ref]> (sessions w1)) w1 in
  call_session ref (call_resume claudeSessionId prompt cwd qr) w2.

(** [closeSession] is [async], and [handleMessage] does not await it:
    the call runs the method up to [await session.close()] and returns.
    [close()] has no [await] of its own, so it has run in full by then. *)
Definition closeSession_call (sessionId : string) (transport : nat)
    (w : World) : World * list ServerEffect :=
  match sessions w !! sessionId with
  | Some ref => call_session ref call_close w
  | None =>
      (w, [transport_send transport
             (ErrorEvent sessionId
                ("Session '" +:+ sessionId +:+ "' not found") None)])
  end.

(** whether the call reaches the [await]: it does in the branch of a
    registered id, and there only *)
Definition closeSession_awaits (sessionId : string) (w : World) : bool :=
  bool_decide (is_Some (sessions w !! sessionId)).

(** [this.sessions.delete(sessionId)], the continuation of the [await].
    It runs as a microtask: once the handler of the current [data] event
    has returned, so after every message of the same chunk has been
    handled, and before the event loop delivers anything else *)
Definition closeSession_resumed (sessionId : string) (w : World) : World :=
  set_sessions (delete sessionId (sessions w)) w.

(** [handleMessage(msg, transport)]; [qr] is what [query()] answers if
    the message leads to calling it *)
Definition handleMessage (msg : InboundMessage) (transport : nat)
    (qr : QueryResult) (w : World) : World * list ServerEffect :=
  match msg with
  | StartSessionMessage config => startSession config transport qr w
  | SendPromptMessage sid prompt =>
      with_session sid (call_sendPrompt prompt qr) w
  | ResumeSessionMessage sid csid prompt cwd =>
      resumeSession sid csid prompt cwd transport qr w
  | PermissionResponseMessage sid requestId behavior updatedInput message =>
      with_session sid
        (call_resolvePermission requestId behavior updatedInput message) w
  | QuestionResponseMessage sid requestId answers =>
      with_session sid (call_resolveQuestion requestId answers) w
  | InterruptMessage sid => with_session sid call_interrupt w
  | CloseSessionMessage sid => closeSession_call sid transport w
  end.

(** the continuations that handling [msg] in [w] leaves for the end of
    the [data] event, as the ids that [closeSession] will delete.  The
    other [async] methods have nothing of the server's after their
    [await]: [start], [sendPrompt] and [resume] go on when the engine
    answers ([on_engine] below), [interrupt] ends there *)
Definition continuations (msg : InboundMessage) (w : World) : list string :=
  match msg with
  | CloseSessionMessage sid => if closeSession_awaits sid w then [sid] else []
  | _ => []
  end.

(** the messages of the lines that one chunk completes: the loop of
    [onData] emits them one by one, and the handler of each returns
    before the next line is parsed; the continuations wait *)
Fixpoint handle_chunk (transport : nat)
    (msgs : list (InboundMessage * QueryResult)) (w : World)
    : World * list ServerEffect * list string :=
  match msgs with
  | [] => (w, [], [])
  | (msg, qr) :: msgs' =>
      let '(w1, e1) := handleMessage msg transport qr w in
      let '(w2, e2, k2) := handle_chunk transport msgs' w1 in
      (w2, e1 ++ e2, continuations msg w ++ k2)
  end.

(** the microtasks of one [data] event, in the order they were queued *)
Definition run_microtasks (ks : list string) (w : World) : World :=
  foldl (λ w sessionId, closeSession_resumed sessionId w) w ks.

(** what the event loop delivers to the server process *)
Inductive ServerInput :=
| on_connection (transport : nat)
| on_transport_close (transport : nat)
| on_data (transport : nat) (msgs : list (InboundMessage * QueryResult))
    (* a chunk on the socket of [transport], with the messages of the
       lines it completes, each with what [query()] answers if handling
       it calls [query()] *)
| on_engine (ref : nat) (c : Call).
    (* the SDK entering the session object at [ref]: [engine_canUseTool]
       or [engine_next] *)

(** a chunk that completes one line *)
Definition on_message (transport : nat) (msg : InboundMessage)
    (qr : QueryResult) : ServerInput :=
  on_data transport [(msg, qr)].

Definition server_step (i : ServerInput) (w : World)
    : World * list ServerEffect :=
  match i with
  | on_connection t => (set_transports ({[t]} ∪ transports w) w, [])
  | on_transport_close t => (set_transports (transports w ∖ {[t]}) w, [])
  | on_data t msgs =>
      let '(w1, effs, ks) := handle_chunk t msgs w in
      (run_microtasks ks w1, effs)
  | on_engine ref c => call_session ref c w
  end.

(** the events that reach the socket of [transport]: the server's own
    replies and what the sessions bound to it send *)
Definition sent_to (transport : nat) (e : ServerEffect)
    : option OutboundMessage :=
  match e with
  | transport_send t msg => if decide (t = transport) then Some msg else None
  | session_effect _ (to_transport t) (Send msg) =>
      if decide (t = transport) then Some msg else None
  | _ => None
  end.

(** a sequence of inputs, in the order the event loop delivers them *)
Fixpoint serve (inputs : list ServerInput) (w : World)
  : World * list ServerEffect :=
  match inputs with
  | [] => (w, [])
  | i :: inputs' =>
      let '(w1, e1) := server_step i w in
      let '(w2, e2) := serve inputs' w1 in
      (w2, e1 ++ e2)
  end.

(** the messages that address a session without creating or closing it *)
Definition best_effort (msg : InboundMessage) : bool :=
  match msg with
  | SendPromptMessage _ _ | InterruptMessage _
  | PermissionResponseMessage _ _ _ _ _ | QuestionResponseMessage _ _ _ =>
      true
  | _ => false
  end.

(** what [resume] makes of a session just constructed, up to its first
    [await] *)
Definition resumed (w : World) (sessionId claudeSessionId prompt cwd : string)
    (transport : nat) (qr : QueryResult) : AgentSession * list Effect :=
  step (call_resume claudeSessionId prompt cwd qr)
    (new_AgentSession sessionId (to_transport transport) (process_cwd w)).

End AgentServer.

(** ** Concrete inputs for the examples *)

(** [JSON.parse] and [JSON.stringify] on the two boolean literals, and the
    decoding of buffers that hold ASCII only: enough of the platform to run
    the framer on concrete input. *)

Module BoolJson.
Import Js.

Definition JSON_stringify (b : bool) : jsstring :=
  if b then lit "true" else lit "false".

Definition JSON_parse (text : jsstring) : option bool :=
  if decide (trim text = lit "true") then Some true
  else if decide (trim text = lit "false") then Some false
  else None.

Definition toString_utf8 (chunk : Buffer) : jsstring := Byte.to_N <$> chunk.

(** the bytes of an ASCII literal *)
Definition bytes (s : string) : Buffer := list_byte_of_string s.

End BoolJson.

Module Sample.
Import Js Protocol AgentSession AgentServer.

(** a session with one parked request, [req_1] *)
Definition parked_session : AgentSession :=
  (step (engine_canUseTool "Bash" [("command", JStr "ls")]
           {| suggestions := None; toolUseID := "toolu_1" |} 0)
     (new_AgentSession "s1" (to_transport 0) "/tmp")).1.

(** a session that captured the empty string as its conversation id *)
Definition empty_id_session : AgentSession :=
  (step (engine_next (Yield (SDKSystemMessage "init" EmptyString None None None)))
     (new_AgentSession "s1" (to_transport 0) "/tmp")).1.

(** a server with the session [s1] registered, one request parked *)
Definition one_session_world : World :=
  {| sessions := {[ "s1" := 0 ]};
     transports := {[ 0; 1 ]};
     objects := {[ 0 := parked_session ]};
     process_cwd := "/srv" |}.

Definition start_s1 : StartSessionConfig :=
  {| cfg_sessionId := "s1"; cfg_cwd := "/tmp"; cfg_prompt := "hi";
     cfg_systemPrompt := None; cfg_model := None;
     cfg_permissionMode := None; cfg_allowedTools := None;
     cfg_settingSources := None |}.

End Sample.

(** ** Reading the events of a session *)

Module SessionReading.
Import Js Protocol AgentSession.

(** the request ids that some effects announce to the client, in order:
    those of the [question] and [permission_request] events sent *)
Definition announced (effs : list Effect) : list string :=
  omap (λ e, match e with
             | Send (QuestionEvent _ requestId _)
             | Send (PermissionRequestEvent _ requestId _ _ _ _) =>
                 Some requestId
             | _ => None
             end) effs.

(** the queries that some effects start, in order *)
Definition queries (effs : list Effect) : list (string * Options) :=
  omap (λ e, match e with
             | CallQuery prompt options => Some (prompt, options)
             | _ => None
             end) effs.

(** the event that a content block of an assistant message is forwarded
    as, if it is *)
Definition block_event (sid uuid : string) (block : ContentBlock)
  : option OutboundMessage :=
  match block with
  | tool_use_block id name input =>
      Some (ToolUseEvent sid uuid name (default (JObj []) input) id)
  | tool_result_block tool_use_id content is_error =>
      Some (ToolResultEvent sid uuid tool_use_id (default JNull content)
              (default false is_error))
  | _ => None
  end.

(** the text of a text block *)
Definition block_text (block : ContentBlock) : option string :=
  match block with
  | text_block text => Some text
  | _ => None
  end.

(** the table of pending requests holds no id twice, and every id in it
    is one that the session gave out *)
Definition table_ok (s : AgentSession) : Prop :=
  NoDup (pendingRequests s).*1
  ∧ ∀ k v, (k, v) ∈ pendingRequests s →
      ∃ n, k = request_id n ∧ (1 ≤ n ≤ requestCounter s)%N.

End SessionReading.

(** ** Reading the server's state and effects *)

Module ServerReading.
Import Js Protocol AgentSession AgentServer.

(** the registry refers to session objects that exist, each under the id
    it was constructed with *)
Definition registry_ok (w : World) : Prop :=
  ∀ sid ref, sessions w !! sid = Some ref →
    ∃ s, objects w !! ref = Some s ∧ sessionId s = sid.

(** an event that leaves the process, by the server's own [send] or by a
    session's [sendToClient], carries the session id [sid] *)
Definition effect_scoped (sid : string) (e : ServerEffect) : Prop :=
  match e with
  | transport_send _ msg | session_effect _ _ (Send msg) =>
      out_sessionId msg = sid
  | _ => True
  end.

(** [new AgentServer(socketPath)]: nothing registered, no connection;
    [objects] are the session objects that exist already *)
Definition new_AgentServer (objects : gmap nat AgentSession)
    (process_cwd : string) : World :=
  {| sessions := ∅; transports := ∅; objects := objects;
     process_cwd := process_cwd |}.

End ServerReading.

(** ** cli.ts: the terminal front end *)

Module Cli.
Import Js Protocol AgentSession.

(** [String.prototype.slice(start, end)] on integers *)
Definition slice (s : jsstring) (start end_ : Z) : jsstring :=
  let len := Z.of_nat (length s) in
  let from := if (start <? 0)%Z then Z.max (len + start) 0
              else Z.min start len in
  let to := if (end_ <? 0)%Z then Z.max (len + end_) 0
            else Z.min end_ len in
  take (Z.to_nat (Z.max (to - from) 0)) (drop (Z.to_nat from) s).

Definition truncate (s : jsstring) (max : Z) : jsstring :=
  if (max <? Z.of_nat (length s))%Z
  then slice s 0 (max - 3) ++ lit "..."
  else s.

(** *** Terminal rendering of streamed text *)

(** the module variable [isStreamingText] and what was written to
    [process.stdout] *)
Record Terminal := {
  isStreamingText : bool;
  stdout : list string;
}.

Definition newline : string := String "010" EmptyString.

Definition stdout_write (text : string) (t : Terminal) : Terminal :=
  {| isStreamingText := isStreamingText t; stdout := stdout t ++ [text] |}.

Definition set_isStreamingText (b : bool) (t : Terminal) : Terminal :=
  {| isStreamingText := b; stdout := stdout t |}.

(** [delta] is a parsed JSON value: an array has none of the properties
    read here, so only objects get through the tests *)
Definition handleStreamDelta (delta : Json) (t : Terminal) : Terminal :=
  match delta with
  | JObj d =>
      match Map_get "type" d, Map_get "delta" d with
      | Some (JStr type), Some (JObj inner) =>
          if String.eqb type "content_block_delta" then
            match Map_get "type" inner, Map_get "text" inner with
            | Some (JStr inner_type), Some (JStr text) =>
                if String.eqb inner_type "text_delta" then
                  let t1 := if isStreamingText t then t
                            else set_isStreamingText true
                                   (stdout_write newline t) in
                  stdout_write text t1
                else t
            | _, _ => t
            end
          else t
      | _, _ => t
      end
  | _ => t
  end.

Definition finishStreaming (t : Terminal) : Terminal :=
  if isStreamingText t
  then set_isStreamingText false (stdout_write newline t)
  else t.

(** the text that a stream delta carries, if it is a text delta *)
Definition text_of_delta (delta : Json) : option string :=
  match delta with
  | JObj d =>
      match Map_get "type" d, Map_get "delta" d with
      | Some (JStr type), Some (JObj inner) =>
          match Map_get "type" inner, Map_get "text" inner with
          | Some (JStr inner_type), Some (JStr text) =>
              if String.eqb type "content_block_delta"
                 && String.eqb inner_type "text_delta"
              then Some text else None
          | _, _ => None
          end
      | _, _ => None
      end
  | _ => None
  end.

Section Platform.
(** [String(v)] of a JSON value, [JSON.stringify] and
    [String.prototype.toLowerCase] *)
Variable String_of : Json → jsstring.
Variable JSON_stringify : Json → jsstring.
Variable toLowerCase : jsstring → jsstring.

(** [String(obj.key ?? empty)] with the empty string for [empty], which
    is also what a template literal makes of [obj.key ?? empty] *)
Definition field (key : string) (obj : JsRecord) : jsstring :=
  match Map_get key obj with
  | None | Some JNull => []
  | Some v => String_of v
  end.

Definition summarizeToolInput (toolName : string) (input : Json) : jsstring :=
  match input with
  | JObj _ | JArr _ =>
      let obj := match input with JObj props => props | _ => [] end in
      if String.eqb toolName "Read" then field "file_path" obj
      else if String.eqb toolName "Write" then field "file_path" obj
      else if String.eqb toolName "Edit" then field "file_path" obj
      else if String.eqb toolName "Bash" then
        truncate (field "command" obj) 120
      else if String.eqb toolName "Glob" then field "pattern" obj
      else if String.eqb toolName "Grep" then
        lit "/" ++ field "pattern" obj ++ lit "/ " ++ field "path" obj
      else if String.eqb toolName "WebFetch" then field "url" obj
      else truncate (JSON_stringify input) 120
  | _ => []
  end.

(** the callback that [promptPermission] hands to [rl.question]: what it
    calls on the session once the user has answered *)
Definition promptPermission_answered (requestId : string)
    (answer : jsstring) : Call :=
  let allowed :=
    negb (bool_decide (toLowerCase (trim answer) = lit "n")) in
  call_resolvePermission requestId (if allowed then allow else deny)
    None None.

End Platform.

(** *** The interactive loop *)

(** what [rl.question] is answered with, or the [close] event of the
    readline interface *)
Inductive Input :=
| line (answer : jsstring)
| eof.


(** [answer.trim() || null] *)
Definition askForInput (i : Input) : option jsstring :=
  match i with
  | line answer =>
      if decide (trim answer = []) then None else Some (trim answer)
  | eof => None
  end.




(** whether a blank answer or the end of input was met *)
Definition ended (inputs : list Input) : bool :=
  existsb (λ i, bool_decide (askForInput i = None)) inputs.

End Cli.

(** ** index.ts: the command line *)

Module Index.
Import Js.

Definition DEFAULT_SOCKET_PATH : jsstring := lit "/tmp/maelstrom/agent.sock".

(** the code unit of [=] *)
Definition EQ : N := 61%N.

Definition startsWith (s prefix : jsstring) : bool :=
  bool_decide (take (length prefix) s = prefix).

(** [s.split(sep)] for a separator of one code unit *)
Fixpoint split (sep : N) (s : jsstring) : list jsstring :=
  match s with
  | [] => [[]]
  | c :: s' =>
      if decide (c = sep) then [] :: split sep s'
      else match split sep s' with
           | part :: parts => (c :: part) :: parts
           | [] => [[c]]
           end
  end.

(** [args.find((a) => a.startsWith("--socket="))?.split("=")[1]
       ?? DEFAULT_SOCKET_PATH] *)
Definition socketPath (args : list jsstring) : jsstring :=
  match List.find (λ a, startsWith a (lit "--socket=")) args with
  | Some a => default DEFAULT_SOCKET_PATH (split EQ a !! 1)
  | None => DEFAULT_SOCKET_PATH
  end.

End Index.

(** * Properties *)

(** ** The code on concrete inputs *)

Section Examples.
Import Js Protocol AgentSession AgentServer Sample.

(** two chunks that cut a line in two: a value, a blank line, the rest in
    the buffer; then the end of that line and a line that is not JSON *)
Example onData_chunks :
  let t0 := NdjsonTransport.new_Transport
              {| NdjsonTransport.destroyed := false;
                 NdjsonTransport.ended := false;
                 NdjsonTransport.written := [] |} in
  let '(evs1, t1) :=
    NdjsonTransport.onData BoolJson.JSON_parse BoolJson.toString_utf8 t0
      (BoolJson.bytes "true" ++ [x0a] ++ BoolJson.bytes "  " ++ [x0a]
         ++ BoolJson.bytes "fal") in
  let '(evs2, t2) :=
    NdjsonTransport.onData BoolJson.JSON_parse BoolJson.toString_utf8 t1
      (BoolJson.bytes "se" ++ [x0a] ++ BoolJson.bytes "zz" ++ [x0a]) in
  evs1 = [NdjsonTransport.message true]
  ∧ NdjsonTransport.buffer t1 = lit "fal"
  ∧ evs2 = [NdjsonTransport.message false;
            NdjsonTransport.error (lit "Invalid JSON: zz")]
  ∧ NdjsonTransport.buffer t2 = [].
Proof. by vm_compute. Qed.

(** [trim] strips the white space of ECMAScript, a no-break space
    included, from both ends only *)
Example trim_both_ends :
  trim ([160; 9]%N ++ lit "a b" ++ [13; 32]%N) = lit "a b".
Proof. reflexivity. Qed.

(** a turn of a session: the engine reports the conversation, asks to run
    a tool, is allowed to, reports its result and ends *)
Example session_turn :
  (run [call_start start_s1 (Created 1);
        engine_next (Yield (SDKSystemMessage "init" "conv-1" None None None));
        engine_canUseTool "Bash" [("command", JStr "ls")]
          {| suggestions := None; toolUseID := "toolu_1" |} 0;
        call_resolvePermission "req_1" allow None None;
        engine_next (Yield (SDKResultMessage "success" false (Some "done")
                              0%Q 12 1 None));
        engine_next Return]
     (new_AgentSession "s1" (to_transport 0) "/srv")).2 =
    [Send (SessionStatusEvent "s1" started);
     Send (SessionStatusEvent "s1" processing);
     CallQuery "hi"
       {| opt_cwd := "/tmp"; opt_model := None; opt_permissionMode := None;
          opt_allowedTools := None; opt_settingSources := Some [src_project];
          opt_systemPrompt := Some preset_claude_code;
          opt_includePartialMessages := true; opt_resume := None |};
     Send (SystemEvent "s1" "init" "conv-1" None None None);
     Send (PermissionRequestEvent "s1" "req_1" "Bash"
             (JObj [("command", JStr "ls")]) "toolu_1" None);
     Resolve 0 (Allow [("command", JStr "ls")]);
     Send (ResultEvent "s1" "success" false (Some "done") 0%Q 12 1 None);
     Send (SessionStatusEvent "s1" idle)].
Proof. reflexivity. Qed.

(** the counter of request ids stops at 2^53, where a JS number no longer
    tells [n] from [n + 1] *)
Example incr_saturates :
  incr 41 = 42%N ∧ incr (2 ^ 53 - 1) = (2 ^ 53)%N
  ∧ incr (2 ^ 53) = (2 ^ 53)%N.
Proof. by vm_compute. Qed.

(** a server, each message in a chunk of its own: a session is started,
    a second start for its id is rejected, the session is closed, and a
    second close finds nothing *)
Example server_start_twice_close_twice :
  (serve [on_connection 0;
          on_message 0 (StartSessionMessage start_s1) (Created 1);
          on_message 1 (StartSessionMessage start_s1) (Created 2);
          on_message 1 (CloseSessionMessage "s1") (Created 3);
          on_message 1 (CloseSessionMessage "s1") (Created 4)]
     {| sessions := ∅; transports := ∅; objects := ∅;
        process_cwd := "/srv" |}).2 =
    [session_effect 0 (to_transport 0)
       (Send (SessionStatusEvent "s1" started));
     session_effect 0 (to_transport 0)
       (Send (SessionStatusEvent "s1" processing));
     session_effect 0 (to_transport 0)
       (CallQuery "hi"
          {| opt_cwd := "/tmp"; opt_model := None; opt_permissionMode := None;
             opt_allowedTools := None;
             opt_settingSources := Some [src_project];
             opt_systemPrompt := Some preset_claude_code;
             opt_includePartialMessages := true; opt_resume := None |});
     transport_send 1 (ErrorEvent "s1" "Session 's1' already exists" None);
     session_effect 0 (to_transport 0) (QueryClose 1);
     session_effect 0 (to_transport 0)
       (Send (SessionStatusEvent "s1" closed));
     transport_send 1 (ErrorEvent "s1" "Session 's1' not found" None)].
Proof. by vm_compute. Qed.

(** one chunk that brings [close_session] twice and then [start_session]
    for the same id: the session is still registered while the chunk is
    handled, so the second close closes it again and the start is
    rejected; the id is free when the next chunk comes *)
Example server_close_and_more_in_one_chunk :
  (serve [on_data 1 [(CloseSessionMessage "s1", Created 3);
                     (CloseSessionMessage "s1", Created 4);
                     (StartSessionMessage start_s1, Created 5)];
          on_data 1 [(StartSessionMessage start_s1, Created 6)]]
     one_session_world).2 =
    [session_effect 0 (to_transport 0) (Resolve 0 (Deny "Session closed"));
     session_effect 0 (to_transport 0)
       (Send (SessionStatusEvent "s1" closed));
     session_effect 0 (to_transport 0)
       (Send (SessionStatusEvent "s1" closed));
     transport_send 1 (ErrorEvent "s1" "Session 's1' already exists" None);
     session_effect 1 (to_transport 1)
       (Send (SessionStatusEvent "s1" started));
     session_effect 1 (to_transport 1)
       (Send (SessionStatusEvent "s1" processing));
     session_effect 1 (to_transport 1)
       (CallQuery "hi"
          {| opt_cwd := "/tmp"; opt_model := None; opt_permissionMode := None;
             opt_allowedTools := None;
             opt_settingSources := Some [src_project];
             opt_systemPrompt := Some preset_claude_code;
             opt_includePartialMessages := true; opt_resume := None |})]
  ∧ sessions
      (serve [on_data 1 [(CloseSessionMessage "s1", Created 3);
                         (ResumeSessionMessage "s1" "conv-9" "go on" "/tmp",
                          Created 4)]]
         one_session_world).1 !! "s1" = None.
Proof. by vm_compute. Qed.

(** a question answered: the promise of the request is resolved with the
    tool input and, under [answers], the answers given *)
Example question_answered :
  (step (call_resolveQuestion "req_1" [("Colour", "red"); ("Size", "L")])
     parked_session).2 =
    [Resolve 0
       (Allow [("command", JStr "ls");
               ("answers", JObj [("Colour", JStr "red");
                                 ("Size", JStr "L")])])].
Proof. reflexivity. Qed.

End Examples.

(** ** The framer *)

Section FramerFacts.
Import Js NdjsonTransport.
Context {J : Type}.
Variable JSON_parse : jsstring → option J.
Variable toString_utf8 : Buffer → jsstring.

Lemma indexOf_None (c : N) (s : jsstring) : c ∉ s → indexOf c s = None.
Proof.
  induction s as [|x s IH]; simpl; [done|].
  intros Hnot. apply not_elem_of_cons in Hnot as [Hne Hnot].
  destruct (N.eqb_spec x c); [congruence|]. by rewrite IH.
Qed.

Lemma indexOf_None_inv (c : N) (s : jsstring) : indexOf c s = None → c ∉ s.
Proof.
  induction s as [|x s IH]; simpl; [intros _; apply not_elem_of_nil|].
  destruct (N.eqb_spec x c); [done|].
  destruct (indexOf c s); [done|]. intros _.
  apply not_elem_of_cons. split; [congruence|by apply IH].
Qed.

Lemma indexOf_first (c : N) (l r : jsstring) :
  c ∉ l → indexOf c (l ++ c :: r) = Some (length l).
Proof.
  induction l as [|x l IH]; simpl; intros Hnot.
  - by rewrite N.eqb_refl.
  - apply not_elem_of_cons in Hnot as [Hne Hnot].
    destruct (N.eqb_spec x c); [congruence|]. by rewrite IH.
Qed.

Lemma indexOf_Some (c : N) (s : jsstring) (i : nat) :
  indexOf c s = Some i →
  ∃ l r, s = l ++ c :: r ∧ (c ∉ l) ∧ length l = i.
Proof.
  revert i; induction s as [|x s IH]; intros i; simpl; [done|].
  destruct (N.eqb_spec x c) as [->|Hne].
  - intros [= <-]. exists [], s. split; [done|]. split; [apply not_elem_of_nil|done].
  - destruct (indexOf c s) as [j|]; simpl; [|done].
    intros [= <-]. destruct (IH j eq_refl) as (l & r & -> & Hnot & <-).
    exists (x :: l), r. split; [done|]. split; [|done].
    apply not_elem_of_cons. split; [congruence|done].
Qed.

(** the loop, unfolded once *)
Lemma drain_unfold (b : jsstring) :
  drain JSON_parse b =
    match indexOf LF b with
    | None => ([], b)
    | Some i =>
        let '(evs, b') := drain JSON_parse (slice_from (i + 1) b) in
        (emit_line JSON_parse (trim (slice_to i b)) ++ evs, b')
    end.
Proof.
  funelim (drain JSON_parse b).
  - by rewrite Hidx.
  - match goal with H : indexOf LF _ = None |- _ => by rewrite H end.
Qed.

Lemma drain_no_LF (b : jsstring) : LF ∉ b → drain JSON_parse b = ([], b).
Proof. intros Hnot. rewrite drain_unfold. by rewrite indexOf_None. Qed.

Lemma drain_line (l r : jsstring) :
  LF ∉ l →
  drain JSON_parse (l ++ LF :: r) =
    (emit_line JSON_parse (trim l) ++ (drain JSON_parse r).1,
     (drain JSON_parse r).2).
Proof.
  intros Hnot. rewrite drain_unfold, indexOf_first by done.
  unfold slice_from, slice_to.
  rewrite take_app_length.
  replace (length l + 1) with (length l + 1 + 0) by lia.
  rewrite <- (Nat.add_assoc (length l)), drop_app_add. simpl. rewrite drop_0.
  by destruct (drain JSON_parse r).
Qed.

(** draining is incremental: what a buffer yields does not depend on
    what arrives after it *)
Lemma drain_app (x c : jsstring) :
  drain JSON_parse (x ++ c) =
    ((drain JSON_parse x).1 ++ (drain JSON_parse ((drain JSON_parse x).2 ++ c)).1,
     (drain JSON_parse ((drain JSON_parse x).2 ++ c)).2).
Proof.
  induction x as [x IH] using (induction_ltof1 _ (@length N)).
  unfold ltof in IH.
  destruct (indexOf LF x) as [i|] eqn:Hidx.
  - apply indexOf_Some in Hidx as (l & r & -> & Hnot & _).
    rewrite <- app_assoc. simpl.
    rewrite !drain_line by done. simpl.
    rewrite (IH r); [simpl; by rewrite app_assoc|].
    rewrite length_app. simpl. lia.
  - rewrite (drain_unfold x), Hidx. simpl.
    by destruct (drain JSON_parse (x ++ c)).
Qed.

(** what the loop leaves in the buffer holds no delimiter *)
Lemma drain_rest (b : jsstring) : LF ∉ (drain JSON_parse b).2.
Proof.
  induction b as [b IH] using (induction_ltof1 _ (@length N)).
  unfold ltof in IH.
  destruct (indexOf LF b) as [i|] eqn:Hidx.
  - apply indexOf_Some in Hidx as (l & r & -> & Hnot & _).
    rewrite drain_line by done. simpl. apply IH.
    rewrite length_app. simpl. lia.
  - rewrite drain_unfold, Hidx. simpl. by apply indexOf_None_inv.
Qed.

(** a sequence of [data] events yields what draining all their text at
    once would *)
Lemma feed_drain (t : Transport) (chunks : list Buffer) :
  LF ∉ buffer t →
  feed JSON_parse toString_utf8 t chunks =
    ((drain JSON_parse (buffer t ++ received toString_utf8 chunks)).1,
     {| buffer := (drain JSON_parse (buffer t ++ received toString_utf8 chunks)).2;
        socket := socket t |}).
Proof.
  unfold received.
  revert t; induction chunks as [|c cs IH]; intros t Hbuf;
    cbn [feed fmap list_fmap concat].
  - rewrite app_nil_r, drain_no_LF by done. by destruct t.
  - unfold onData.
    rewrite app_assoc, (drain_app (buffer t ++ toString_utf8 c)).
    pose proof (drain_rest (buffer t ++ toString_utf8 c)) as Hrest.
    destruct (drain JSON_parse (buffer t ++ toString_utf8 c)) as [e1 b1].
    cbn [fst snd] in *. by rewrite IH.
Qed.

Lemma emit_line_segment (g : Segment J) :
  segment_ok JSON_parse g →
  emit_line JSON_parse (trim (segment_text g)) = segment_events g.
Proof.
  unfold emit_line. intros [_ Hkind]. destruct g as [l|l v|l]; simpl in *.
  - by rewrite Hkind.
  - destruct Hkind as [Hne ->]. case_decide; [done|].
    destruct (trim l); [done|simpl in *; lia].
  - destruct Hkind as [Hne ->]. case_decide; [done|].
    destruct (trim l); [done|simpl in *; lia].
Qed.

Lemma drain_wire (segments : list (Segment J)) :
  Forall (segment_ok JSON_parse) segments →
  drain JSON_parse (wire segments) = (segments ≫= segment_events, []).
Proof.
  induction 1 as [|g gs Hg _ IH]; cbn [wire].
  - by rewrite drain_no_LF by apply not_elem_of_nil.
  - rewrite drain_line by apply Hg.
    rewrite IH. cbn [fst snd]. by rewrite emit_line_segment.
Qed.

(** whatever the chunks, a transport with an empty buffer that receives
    the text of a stream of segments handles each of them on its own *)
Lemma feed_wire (sock : Socket) (segments : list (Segment J))
    (chunks : list Buffer) :
  Forall (segment_ok JSON_parse) segments →
  received toString_utf8 chunks = wire segments →
  feed JSON_parse toString_utf8 (new_Transport sock) chunks =
    (segments ≫= segment_events, new_Transport sock).
Proof.
  intros Hok Hchunks.
  rewrite feed_drain by apply not_elem_of_nil. simpl.
  by rewrite Hchunks, drain_wire.
Qed.

Lemma events_of_valid_or_blank (segments : list (Segment J)) :
  Forall (λ g, is_malformed g = false) segments →
  segments ≫= segment_events = message <$> omap parsed segments.
Proof.
  induction 1 as [|g gs Hg _ IH]; [done|].
  rewrite bind_cons, IH. by destruct g.
Qed.

(** C4. The framer skips blank segments silently, and a segment that
    fails to parse costs one malformed-input signal and nothing else: a
    stream that starts with a malformed line and goes on with valid lines
    (and blank ones, anywhere among them), brought by chunks of any
    sizes whose decoded text it is, yields the error of the malformed
    line and then the value of every valid line, in order; as many
    messages as there are valid lines and one error; no [close] event,
    the socket untouched and the buffer empty again. *)
Theorem framer_malformed_line_then_valid_lines
    (sock : Socket) (bad : jsstring) (later : list (Segment J))
    (chunks : list Buffer) :
  segment_ok JSON_parse (malformed_segment bad) →
  Forall (segment_ok JSON_parse) later →
  Forall (λ g, is_malformed g = false) later →
  received toString_utf8 chunks = wire (malformed_segment bad :: later) →
  ∃ evs,
    feed JSON_parse toString_utf8 (new_Transport sock) chunks
      = (evs, new_Transport sock)
    ∧ evs = error (lit "Invalid JSON: " ++ slice_to 200 (trim bad))
              :: (message <$> omap parsed later)
    ∧ length (filter is_message evs) = length (omap parsed later)
    ∧ length (filter is_error evs) = 1
    ∧ close ∉ evs.
Proof.
  intros Hbad Hlater Hvalid Hchunks.
  eexists. split.
  { apply feed_wire; [|done]. by constructor. }
  rewrite bind_cons, events_of_valid_or_blank by done.
  cbn [segment_events app].
  split; [done|].
  assert (Hmsgs : ∀ vs : list J,
    filter is_message (message <$> vs) = message <$> vs
    ∧ filter is_error (message <$> vs) = []
    ∧ close ∉ ((message <$> vs) : list (TransportEvent J))).
  { induction vs as [|v vs (IH1 & IH2 & IH3)].
    - split; [done|]. split; [done|]. apply not_elem_of_nil.
    - cbn [fmap list_fmap]. rewrite filter_cons_True by done.
      rewrite filter_cons_False by (by intros []).
      split; [by f_equal|]. split; [done|].
      apply not_elem_of_cons. by split. }
  destruct (Hmsgs (omap parsed later)) as (H1 & H2 & H3).
  rewrite filter_cons_False by (by intros []).
  rewrite filter_cons_True by done.
  rewrite H1, H2, length_fmap.
  split; [done|]. split; [done|].
  apply not_elem_of_cons. by split.
Qed.

Section Roundtrip.
Variable JSON_stringify : J → jsstring.

(** What the bridge relies on from the platform's JSON: a value is
    read back from its text, and the text of a message holds no line
    feed and neither starts nor ends with white space. *)
Hypothesis parse_stringify :
  ∀ m, JSON_parse (JSON_stringify m) = Some m.
Hypothesis stringify_one_line : ∀ m, LF ∉ JSON_stringify m.
Hypothesis stringify_trimmed :
  ∀ m, trim (JSON_stringify m) = JSON_stringify m
       ∧ JSON_stringify m ≠ [].

Lemma sent_segment_ok (m : J) :
  segment_ok JSON_parse (valid_segment (JSON_stringify m) m).
Proof.
  split; [apply stringify_one_line|]. simpl.
  destruct (stringify_trimmed m) as [-> Hne]. by split.
Qed.

(** a live socket is written one line per message *)
Lemma written_sends (t : Transport) (ms : list J) :
  destroyed (socket t) = false →
  foldl (send JSON_stringify) t ms =
    {| buffer := buffer t;
       socket := {| destroyed := false; ended := ended (socket t);
                    written := written (socket t)
                      ++ ((λ m, JSON_stringify m ++ [LF]) <$> ms) |} |}.
Proof.
  revert t; induction ms as [|m ms IH]; intros t Hlive; simpl.
  - rewrite app_nil_r. destruct t as [b [d e w]]. simpl in *. by subst.
  - rewrite IH; unfold send; rewrite Hlive; simpl; [|done].
    by rewrite <- app_assoc.
Qed.

Lemma wire_sent (ms : list J) :
  concat ((λ m, JSON_stringify m ++ [LF]) <$> ms) =
    wire ((λ m, valid_segment (JSON_stringify m) m) <$> ms).
Proof.
  induction ms as [|m ms IH]; [done|].
  rewrite !fmap_cons. cbn [concat wire segment_text].
  by rewrite IH, <- app_assoc.
Qed.

(** C9. Serializing and then parsing is the identity: what [send]
    writes for a sequence of messages on a live socket (the JSON text
    of each, then a line feed), brought by chunks of any sizes whose
    decoded text it is to a transport with an empty buffer, is emitted by
    it as exactly those messages, in order, and leaves its buffer empty. *)
Theorem ndjson_send_then_parse
    (sender receiver : Transport) (ms : list J) (chunks : list Buffer) :
  destroyed (socket sender) = false →
  buffer receiver = [] →
  received toString_utf8 chunks =
    concat (drop (length (written (socket sender)))
              (written (socket (foldl (send JSON_stringify) sender ms)))) →
  feed JSON_parse toString_utf8 receiver chunks = (message <$> ms, receiver).
Proof.
  intros Hlive Hempty Hchunks.
  rewrite written_sends in Hchunks by done. simpl in Hchunks.
  rewrite drop_app_length, wire_sent in Hchunks.
  replace receiver with (new_Transport (socket receiver))
    by (destruct receiver; simpl in *; by subst).
  rewrite (feed_wire (socket receiver)
             ((λ m, valid_segment (JSON_stringify m) m) <$> ms) chunks);
    [| |done].
  - f_equal. clear. induction ms as [|m ms IH]; [done|].
    by rewrite fmap_cons, bind_cons, IH.
  - apply Forall_fmap, Forall_forall. intros m _. apply sent_segment_ok.
Qed.
End Roundtrip.

End FramerFacts.

(** ** The ordered map *)

Section OrderedMapFacts.
Import Js.
Context {K V : Type} `{EqDecision K}.
Implicit Types (k : K) (v : V) (m : list (K * V)).

Lemma Map_get_delete k m : Map_get k (Map_delete k m) = None.
Proof.
  unfold Map_delete. induction m as [|[k' v'] m IH]; [done|].
  rewrite filter_cons. simpl. case_decide; [|done].
  simpl. by rewrite decide_False.
Qed.

Lemma Map_get_delete_ne k k' m :
  k ≠ k' → Map_get k' (Map_delete k m) = Map_get k' m.
Proof.
  intros Hne. unfold Map_delete. induction m as [|[k1 v1] m IH]; [done|].
  rewrite filter_cons. simpl. case_decide as Hk; simpl.
  - by rewrite IH.
  - subst k1. by rewrite decide_False.
Qed.

Lemma Map_get_set k v m : Map_get k (Map_set k v m) = Some v.
Proof.
  induction m as [|[k' v'] m IH]; simpl; [by rewrite decide_True|].
  case_decide; simpl; [by rewrite decide_True|by rewrite decide_False].
Qed.

Lemma Map_get_set_ne k k' v m :
  k ≠ k' → Map_get k' (Map_set k v m) = Map_get k' m.
Proof.
  intros Hne. induction m as [|[k1 v1] m IH]; simpl; [by rewrite decide_False|].
  case_decide as Hk; simpl.
  - subst k1. by rewrite !decide_False.
  - case_decide; [done|apply IH].
Qed.

Lemma Map_get_Some_elem k v m : Map_get k m = Some v → (k, v) ∈ m.
Proof.
  induction m as [|[k' v'] m IH]; simpl; [done|].
  case_decide; [intros [= ->]; subst; apply list_elem_of_here|].
  intros Hget. apply list_elem_of_further. by apply IH.
Qed.
End OrderedMapFacts.

(** ** The session *)

Section SessionFacts.
Import Js Protocol AgentSession AgentServer.

Lemma resolve_absent (s : AgentSession) (requestId : string) (c : Call) :
  resolves requestId c →
  Map_get requestId (pendingRequests s) = None →
  enter c s = (Normal tt, s, []).
Proof.
  intros Hc Habsent. destruct c; try done; simpl in Hc; subst;
    cbn; unfold bind, this; by rewrite Habsent.
Qed.

Lemma resolve_present (s : AgentSession) (requestId : string) (c : Call)
    (pending : PendingRequest) :
  resolves requestId c →
  Map_get requestId (pendingRequests s) = Some pending →
  ∃ r, step c s =
    (set_pendingRequests (Map_delete requestId (pendingRequests s)) s,
     [Resolve (resolve pending) r]).
Proof.
  intros Hc Hget.
  destruct c; try done; simpl in Hc; subst; unfold step; cbn;
    unfold bind, this; rewrite Hget; cbn.
  - destruct behavior; eexists; reflexivity.
  - eexists; reflexivity.
Qed.

(** C1. A pending decision is resolved at most once.  A call of
    [resolvePermission] or [resolveQuestion] for an id that the table of
    pending requests does not hold changes nothing and resolves nothing.
    For an id that the table holds, the call resolves the promise of that
    entry, once, and takes the entry out, so that any later call of
    either method for the same id changes nothing and resolves nothing. *)
Theorem resolve_at_most_once
    (s : AgentSession) (requestId : string) (c c' : Call) :
  resolves requestId c →
  resolves requestId c' →
  match Map_get requestId (pendingRequests s) with
  | None => step c s = (s, [])
  | Some pending =>
      ∃ r s1,
        step c s = (s1, [Resolve (resolve pending) r])
        ∧ Map_get requestId (pendingRequests s1) = None
        ∧ step c' s1 = (s1, [])
  end.
Proof.
  intros Hc Hc'.
  destruct (Map_get requestId (pendingRequests s)) as [pending|] eqn:Hget.
  - destruct (resolve_present s requestId c pending Hc Hget) as [r Hstep].
    exists r, (set_pendingRequests (Map_delete requestId (pendingRequests s)) s).
    split; [done|]. simpl. split; [apply Map_get_delete|].
    unfold step. rewrite (resolve_absent _ requestId); [done..|].
    apply Map_get_delete.
  - unfold step. by rewrite (resolve_absent _ requestId).
Qed.

Lemma for_of_effects {A} (xs : list A) (f : A → Effect) (s : AgentSession) :
  for_of xs (λ x, effect (f x)) s = (Normal tt, s, f <$> xs).
Proof.
  induction xs as [|x xs IH]; [done|].
  cbn [for_of]. unfold bind at 1. cbn. by rewrite IH.
Qed.

Lemma call_session_registry (w : World) (ref : nat) (c : Call) :
  sessions (call_session ref c w).1 = sessions w.
Proof.
  unfold call_session. destruct (objects w !! ref); [|done].
  by destruct (step c _).
Qed.

Lemma call_session_object (w : World) (ref : nat) (c : Call)
    (s : AgentSession) :
  objects w !! ref = Some s →
  objects (call_session ref c w).1 !! ref = Some (step c s).1.
Proof.
  intros Hs. unfold call_session. rewrite Hs.
  destruct (step c s). simpl. apply lookup_insert_eq.
Qed.

(** the step in which the engine raises, at the session *)
Lemma raise_handled (s : AgentSession) (c : Call) (err : Thrown) :
  raises s c err →
  ∃ before s',
    enter c s =
      (Normal tt, s',
       before ++ [Send (ErrorEvent (sessionId s) (error_text err) None);
                  Send (SessionStatusEvent (sessionId s) idle)])
    ∧ last (statuses (step c s).2) = Some idle
    ∧ activeQuery s' = None
    ∧ sessionId s' = sessionId s
    ∧ pendingRequests s' = pendingRequests s
    ∧ claudeSessionId s' = claudeSessionId s.
Proof.
  intros Hraise.
  destruct c as [config qr|prompt qr|csid prompt cwd qr| | | | | |item];
    try done.
  - destruct qr as [q|e]; [done|]. simpl in Hraise. subst e.
    by eexists [_; _; _], _.
  - destruct qr as [q|e]; [done|]. simpl in Hraise.
    destruct Hraise as [Hid ->].
    assert (Henter : enter (call_sendPrompt prompt (Raised err)) s =
      (Normal tt, set_activeQuery None s,
       [Send (SessionStatusEvent (sessionId s) processing);
        CallQuery prompt
          {| opt_cwd := lastCwd s; opt_model := None;
             opt_permissionMode := None; opt_allowedTools := None;
             opt_settingSources := None; opt_systemPrompt := None;
             opt_includePartialMessages := true;
             opt_resume := claudeSessionId s |}]
       ++ [Send (ErrorEvent (sessionId s) (error_text err) None);
           Send (SessionStatusEvent (sessionId s) idle)])).
    { cbn. unfold sendPrompt, bind, this. cbn. by rewrite Hid. }
    eexists _, _. split; [exact Henter|].
    unfold step. by rewrite Henter.
  - destruct qr as [q|e]; [done|]. simpl in Hraise. subst e.
    by eexists [_; _], _.
  - destruct item as [msg| |e]; try done. simpl in Hraise. subst e.
    by exists [], (set_activeQuery None s).
Qed.

(** C2. Whenever the engine raises an exception in an invocation, be it
    [query()] throwing as [start], [sendPrompt] or [resume] calls it or
    the iterator of the running query rejecting, the session handles it
    in that same step: the step ends normally, the last two events it
    sends are an [error] event with the text of the exception and then
    the status [idle], which is thus the last status sent; no query is
    left active; the id, the pending requests and the captured
    conversation id are as the step found them, and a server that
    entered the session for this step still has it in its registry and
    its store. *)
Theorem engine_exception_then_idle
    (s : AgentSession) (c : Call) (err : Thrown) :
  raises s c err →
  ∃ before s',
    enter c s =
      (Normal tt, s',
       before ++ [Send (ErrorEvent (sessionId s) (error_text err) None);
                  Send (SessionStatusEvent (sessionId s) idle)])
    ∧ last (statuses (step c s).2) = Some idle
    ∧ activeQuery s' = None
    ∧ sessionId s' = sessionId s
    ∧ pendingRequests s' = pendingRequests s
    ∧ claudeSessionId s' = claudeSessionId s
    ∧ ∀ (w : World) (ref : nat),
        objects w !! ref = Some s →
        sessions (call_session ref c w).1 = sessions w
        ∧ objects (call_session ref c w).1 !! ref = Some s'.
Proof.
  intros Hraise.
  destruct (raise_handled s c err Hraise)
    as (before & s' & Henter & Hlast & Hq & Hid & Hpend & Hconv).
  exists before, s'. repeat (split; [done|]).
  intros w ref Hs. split; [apply call_session_registry|].
  rewrite (call_session_object w ref c s Hs). unfold step. by rewrite Henter.
Qed.

(** [close()], as one equation *)
Lemma close_effects (s : AgentSession) :
  enter call_close s =
    (Normal tt, set_pendingRequests [] (set_activeQuery None s),
     from_option (λ q, [QueryClose q]) [] (activeQuery s)
       ++ ((λ entry : string * PendingRequest,
              Resolve (resolve entry.2) (Deny "Session closed"))
             <$> pendingRequests s)
       ++ [Send (SessionStatusEvent (sessionId s) closed)]).
Proof.
  cbn [enter]. unfold close.
  destruct s as [sid sink [q|] csid pend ctr cwd]; cbn;
    unfold bind at 1; cbn; rewrite for_of_effects; cbn;
    by rewrite ?app_nil_r.
Qed.

(** C3. [close()] on a session with K pending requests closes the
    active query if there is one, then resolves the promise of each of
    the K requests, in the order of the table, with a deny decision
    whose message is [Session closed], and only then sends the status
    [closed]; it leaves the table empty and no query active.  A second
    [close()] resolves nothing: it sends [closed] again and changes
    nothing. *)
Theorem close_denies_every_pending_request (s : AgentSession) :
  let denies :=
    (λ entry : string * PendingRequest,
       Resolve (resolve entry.2) (Deny "Session closed"))
      <$> pendingRequests s in
  let after := set_pendingRequests [] (set_activeQuery None s) in
  enter call_close s =
    (Normal tt, after,
     from_option (λ q, [QueryClose q]) [] (activeQuery s)
       ++ denies
       ++ [Send (SessionStatusEvent (sessionId s) closed)])
  ∧ length denies = length (pendingRequests s)
  ∧ pendingRequests after = []
  ∧ enter call_close after =
      (Normal tt, after, [Send (SessionStatusEvent (sessionId s) closed)]).
Proof.
  intros denies after. split; [|split; [|split]].
  - apply close_effects.
  - unfold denies. by rewrite length_fmap.
  - done.
  - done.
Qed.

(** a system event is what captures the conversation id *)
Lemma system_event_captures_id (s : AgentSession) (subtype id : string)
    (tools : option (list string)) (model cwd : option string) :
  claudeSessionId
    (step (engine_next (Yield (SDKSystemMessage subtype id tools model cwd)))
       s).1 = Some id.
Proof. done. Qed.

(** forwarding content blocks only sends *)
Lemma forward_blocks_state (uuid : string) (blocks : list ContentBlock) :
  ∀ parts s, ∃ parts' effs,
    forward_blocks uuid blocks parts s = (Normal parts', s, effs).
Proof.
  induction blocks as [|b bs IH]; intros parts s; [by eexists _, _|].
  destruct b as [text|id name input|tid content is_error|];
    cbn [forward_blocks]; unfold bind, this, send, effect; cbn.
  - destruct (IH (parts ++ [text]) s) as (p & e & ->). by eexists _, _.
  - destruct (IH parts s) as (p & e & ->). by eexists _, _.
  - destruct (IH parts s) as (p & e & ->). by eexists _, _.
  - destruct (IH parts s) as (p & e & ->). by eexists _, _.
Qed.

(** and nothing else changes it *)
Lemma only_system_event_captures_id (s : AgentSession) (c : Call) :
  (∀ subtype id tools model cwd,
     c ≠ engine_next (Yield (SDKSystemMessage subtype id tools model cwd))) →
  claudeSessionId (step c s).1 = claudeSessionId s.
Proof.
  intros Hc. unfold step.
  destruct c as [config qr|prompt qr|csid prompt cwd qr| | |rid b u m
                 |rid answers|name input opts d|item]; cbn.
  - by destruct qr.
  - unfold sendPrompt, bind, this. cbn.
    destruct (falsy (claudeSessionId s)); [done|]. by destruct qr.
  - by destruct qr.
  - unfold interrupt, bind, this. cbn. by destruct (activeQuery s).
  - unfold close, bind at 1, this. cbn.
    destruct (activeQuery s); cbn; unfold bind at 1; cbn;
      rewrite for_of_effects; done.
  - unfold resolvePermission, bind, this. cbn.
    destruct (Map_get rid (pendingRequests s)); [|done]. by destruct b.
  - unfold resolveQuestion, bind, this. cbn.
    by destruct (Map_get rid (pendingRequests s)).
  - unfold handleCanUseTool, bind, this. cbn.
    by destruct (String.eqb name "AskUserQuestion").
  - destruct item as [msg| |e]; [|done..].
    destruct msg as [subtype id tools model cwd|uuid content| | | |];
      try done.
    + by destruct (Hc subtype id tools model cwd).
    + destruct content as [blocks|]; [|done].
      unfold runQuery_next, try_catch_finally. cbn [forwardMessage].
      unfold handleAssistantMessage, bind at 1. unfold bind at 1.
      destruct (forward_blocks_state uuid blocks [] s) as (parts & e1 & ->).
      unfold bind, this. cbn. by case_decide.
Qed.

(** C7, as the code has it.  [sendPrompt] with no conversation id
    captured sends an [error] event and does nothing else: the state is
    unchanged, no query starts, no status is sent.  An empty string
    captured as the id counts as none.  With a non-empty id captured,
    [sendPrompt] sends [processing] and calls [query] to resume that
    very id, in the last working directory. *)
Theorem sendPrompt_resumes_captured_id
    (s : AgentSession) (text : string) (qr : QueryResult) :
  match claudeSessionId s with
  | None =>
      enter (call_sendPrompt text qr) s =
        (Normal tt, s,
         [Send (ErrorEvent (sessionId s)
                  "No active session to send prompt to" None)])
  | Some id =>
      if decide (id = EmptyString) then
        enter (call_sendPrompt text qr) s =
          (Normal tt, s,
           [Send (ErrorEvent (sessionId s)
                    "No active session to send prompt to" None)])
      else
        ∃ rest,
          (step (call_sendPrompt text qr) s).2 =
            Send (SessionStatusEvent (sessionId s) processing)
              :: CallQuery text
                   {| opt_cwd := lastCwd s; opt_model := None;
                      opt_permissionMode := None; opt_allowedTools := None;
                      opt_settingSources := None; opt_systemPrompt := None;
                      opt_includePartialMessages := true;
                      opt_resume := Some id |}
              :: rest
          ∧ resolved rest = [] ∧ (∀ p o, CallQuery p o ∉ rest)
  end.
Proof.
  cbn [enter]. unfold step. cbn [enter]. unfold sendPrompt, bind at 1, this.
  destruct (claudeSessionId s) as [id|] eqn:Hid; cbn; rewrite Hid; [|done].
  case_decide as Hempty; [by subst id|].
  cbn. destruct (String.eqb_spec id EmptyString); [done|].
  destruct qr as [q|e]; cbn.
  - exists []. split; [done|]. split; [done|]. intros p o. apply not_elem_of_nil.
  - eexists [_; _]. split; [done|]. split; [done|].
    intros p o Hin. by repeat (apply elem_of_cons in Hin as [?|Hin]; [done|]);
      apply elem_of_nil in Hin.
Qed.

(** The claim of C7 that a captured identifier is always resumed fails
    for the empty string: a session that captured it from a system event
    answers [sendPrompt] with the [error] event, keeps its state, and
    calls no query. *)
Lemma sendPrompt_empty_id_not_resumed :
  claudeSessionId Sample.empty_id_session = Some EmptyString
  ∧ step (call_sendPrompt "hi" (Created 7)) Sample.empty_id_session =
      (Sample.empty_id_session,
       [Send (ErrorEvent "s1" "No active session to send prompt to" None)])
  ∧ ¬ ∃ p o,
        CallQuery p o
          ∈ (step (call_sendPrompt "hi" (Created 7))
               Sample.empty_id_session).2.
Proof.
  split; [done|]. split; [done|]. intros (p & o & Hin).
  apply elem_of_cons in Hin as [?|Hin]; [done|]. by apply elem_of_nil in Hin.
Qed.

Lemma merged_answers (answers : Json) (input : JsRecord) :
  Map_get "answers" (Map_set "answers" answers input) = Some answers
  ∧ ∀ k, k ≠ "answers" →
      Map_get k (Map_set "answers" answers input) = Map_get k input.
Proof.
  split; [apply Map_get_set|]. intros k Hk. by apply Map_get_set_ne.
Qed.

(** the answers as a JSON object: the same questions in the same order,
    each with its answer as a string *)
Lemma answers_recorded (answers : list (string * string)) :
  answers_json answers = JObj ((λ qa, (qa.1, JStr qa.2)) <$> answers).
Proof. reflexivity. Qed.

Lemma Map_get_recorded (answers : list (string * string)) (question : string) :
  Map_get question ((λ qa, (qa.1, JStr qa.2)) <$> answers)
  = JStr <$> Map_get question answers.
Proof.
  induction answers as [|[q a] answers IH]; [done|].
  cbn. by case_decide.
Qed.

(** C8. [resolveQuestion] for an id that the table holds takes the entry
    out and resolves its promise, once, as [allow]; the payload is the
    tool input stored with the request plus the answers: under [answers]
    it holds an object with the questions answered, in the order given,
    each with its answer as a string, so that looking a question up in it
    gives the answer given to that question; and under every other key
    it holds what the stored input holds.  For an id that the table does
    not hold it does nothing. *)
Theorem resolveQuestion_allows_with_answers
    (s : AgentSession) (requestId : string)
    (answers : list (string * string)) :
  match Map_get requestId (pendingRequests s) with
  | Some pending =>
      ∃ payload recorded,
        enter (call_resolveQuestion requestId answers) s =
          (Normal tt,
           set_pendingRequests (Map_delete requestId (pendingRequests s)) s,
           [Resolve (resolve pending) (Allow payload)])
        ∧ payload
          = Map_set "answers" (JObj recorded) (toolInput pending)
        ∧ Map_get "answers" payload = Some (JObj recorded)
        ∧ recorded = (λ qa, (qa.1, JStr qa.2)) <$> answers
        ∧ (∀ question,
             Map_get question recorded = JStr <$> Map_get question answers)
        ∧ ∀ k, k ≠ "answers" →
            Map_get k payload = Map_get k (toolInput pending)
  | None =>
      enter (call_resolveQuestion requestId answers) s = (Normal tt, s, [])
  end.
Proof.
  cbn [enter]. unfold resolveQuestion, bind at 1, this.
  destruct (Map_get requestId (pendingRequests s)) as [pending|] eqn:Hget;
    cbn; rewrite ?Hget; [|done].
  rewrite answers_recorded. eexists _, _. split; [reflexivity|].
  split; [done|].
  destruct (merged_answers
              (JObj ((λ qa, (qa.1, JStr qa.2)) <$> answers))
              (toolInput pending)) as [Hanswers Hothers].
  split; [done|]. split; [done|]. split; [|done].
  apply Map_get_recorded.
Qed.

(** X4. A question response for the id that the decision callback gave
    out resolves the promise that the callback returned, with [allow] and
    a payload that is the tool input as the engine handed it over with,
    under [answers], an object of the questions answered, in the order
    given, each with its answer as a string: looking a question up in it
    gives the answer given, and every other key of the payload is as in
    the tool input. *)
Lemma question_round_trip (s : AgentSession) (toolName : string)
    (input : JsRecord) (opts : CanUseToolOpts) (d : Deferred)
    (answers : list (string * string)) :
  let s1 := (step (engine_canUseTool toolName input opts d) s).1 in
  let requestId := "req_" +:+ pretty (requestCounter s1) in
  let recorded := (λ qa, (qa.1, JStr qa.2)) <$> answers in
  let payload := Map_set "answers" (JObj recorded) input in
  requestCounter s1 = incr (requestCounter s)
  ∧ Map_get requestId (pendingRequests s1)
    = Some {| resolve := d; toolInput := input |}
  ∧ (step (call_resolveQuestion requestId answers) s1).2 =
      [Resolve d (Allow payload)]
  ∧ Map_get "answers" payload = Some (JObj recorded)
  ∧ (∀ question,
       Map_get question recorded = JStr <$> Map_get question answers)
  ∧ ∀ k, k ≠ "answers" → Map_get k payload = Map_get k input.
Proof.
  intros s1 requestId recorded payload.
  destruct (merged_answers (JObj recorded) input) as [Hanswers Hothers].
  enough (requestCounter s1 = incr (requestCounter s)
          ∧ Map_get requestId (pendingRequests s1)
            = Some {| resolve := d; toolInput := input |}
          ∧ (step (call_resolveQuestion requestId answers) s1).2 =
              [Resolve d (Allow payload)]) as (? & ? & ?).
  { repeat (split; [done|]). split; [apply Map_get_recorded|done]. }
  clear Hanswers Hothers. unfold payload, recorded.
  rewrite <- answers_recorded. revert s1 requestId. clear recorded payload.
  intros s1 requestId.
  assert (Hs1 : s1 =
    set_pendingRequests
      (Map_set ("req_" +:+ pretty (incr (requestCounter s)))
         {| resolve := d; toolInput := input |} (pendingRequests s))
      (set_requestCounter (incr (requestCounter s)) s)).
  { unfold s1, step. cbn. unfold handleCanUseTool, bind, this. cbn.
    by destruct (String.eqb toolName "AskUserQuestion"). }
  assert (Hget : Map_get requestId (pendingRequests s1)
                 = Some {| resolve := d; toolInput := input |}).
  { unfold requestId. rewrite Hs1. cbn. apply Map_get_set. }
  split; [by rewrite Hs1|]. split; [done|].
  unfold step. cbn [enter]. unfold resolveQuestion, bind at 1, this.
  cbn. by rewrite Hget.
Qed.
End SessionFacts.

(** ** Runs of a session *)

Section SessionRuns.
Import Js Protocol AgentSession.

Implicit Types (s : AgentSession) (c : Call) (d : Deferred).

Lemma run_app (cs cs' : list Call) s :
  run (cs ++ cs') s =
    ((run cs' (run cs s).1).1, (run cs s).2 ++ (run cs' (run cs s).1).2).
Proof.
  revert s; induction cs as [|c cs IH]; intros s; cbn [run app fst snd].
  - by destruct (run cs' s).
  - destruct (step c s) as [s1 e1]. rewrite IH.
    destruct (run cs s1) as [s2 e2]. cbn [fst snd].
    destruct (run cs' s2) as [s3 e3]. cbn [fst snd]. by rewrite app_assoc.
Qed.

(** X14. However a run went, an engine that raises at its end leaves the
    [error] event and then [idle] as the last things sent. *)
Lemma run_ends_idle (cs : list Call) s c (err : Thrown) :
  raises (run cs s).1 c err →
  ∃ before,
    (run (cs ++ [c]) s).2 =
      before ++ [Send (ErrorEvent (sessionId (run cs s).1) (error_text err) None);
                 Send (SessionStatusEvent (sessionId (run cs s).1) idle)].
Proof.
  intros Hraise. rewrite run_app. cbn [snd run].
  destruct (raise_handled _ _ _ Hraise) as (before & s' & Henter & _).
  unfold step. rewrite Henter. cbn [snd].
  exists ((run cs s).2 ++ before). by rewrite app_nil_r, app_assoc.
Qed.

Lemma forward_blocks_sends (uuid : string) (blocks : list ContentBlock) :
  ∀ parts s, ∃ parts' effs,
    forward_blocks uuid blocks parts s = (Normal parts', s, effs)
    ∧ resolved effs = [].
Proof.
  induction blocks as [|b bs IH]; intros parts s; [by eexists _, _|].
  destruct b as [text|id name input|tid content is_error|];
    cbn [forward_blocks]; unfold bind, this, send, effect; cbn.
  - destruct (IH (parts ++ [text]) s) as (p & e & -> & He). by eexists _, _.
  - destruct (IH parts s) as (p & e & -> & He). by eexists _, _.
  - destruct (IH parts s) as (p & e & -> & He). by eexists _, _.
  - destruct (IH parts s) as (p & e & -> & He). by eexists _, _.
Qed.

Lemma enter_leaves_pending c s :
  leaves_pending c = true →
  ∃ comp s' effs,
    enter c s = (comp, s', effs)
    ∧ pendingRequests s' = pendingRequests s
    ∧ requestCounter s' = requestCounter s
    ∧ resolved effs = [].
Proof.
  intros Hc.
  destruct c as [config qr|prompt qr|csid prompt cwd qr| | |rid b u m
                 |rid answers|name input opts d|item]; try done; cbn.
  - destruct qr; by eexists _, _, _.
  - unfold sendPrompt, bind, this. cbn.
    destruct (falsy (claudeSessionId s)); [by eexists _, _, _|].
    destruct qr; by eexists _, _, _.
  - destruct qr; by eexists _, _, _.
  - unfold interrupt, bind, this. cbn.
    destruct (activeQuery s); by eexists _, _, _.
  - destruct item as [msg| |e]; [|by eexists _, _, _..].
    destruct msg as [subtype id tools model cwd|uuid content| | | |];
      try by eexists _, _, _.
    destruct content as [blocks|]; [|by eexists _, _, _].
    unfold runQuery_next, try_catch_finally. cbn [forwardMessage].
    unfold handleAssistantMessage, bind at 1. unfold bind at 1.
    destruct (forward_blocks_sends uuid blocks [] s) as (parts & e1 & -> & He).
    unfold bind, this. cbn.
    case_decide; cbn; eexists _, _, _; (split; [reflexivity|]);
      (split; [done|]); (split; [done|]);
      unfold resolved in *; by rewrite !omap_app, He.
Qed.

Lemma step_leaves_pending c s :
  leaves_pending c = true →
  pendingRequests (step c s).1 = pendingRequests s
  ∧ resolved (step c s).2 = [].
Proof.
  intros Hc. unfold step.
  by destruct (enter_leaves_pending c s Hc)
    as (comp & s' & effs & -> & ? & ? & ?).
Qed.

(** the promises of a table after [set] *)
Lemma parked_set (requestId : string) (entry : PendingRequest)
    (pending : list (string * PendingRequest)) :
  let f := λ e : string * PendingRequest, resolve e.2 in
  (∀ d, d ∈ f <$> Map_set requestId entry pending →
        d = resolve entry ∨ d ∈ f <$> pending)
  ∧ (NoDup (f <$> pending) → resolve entry ∉ f <$> pending →
     NoDup (f <$> Map_set requestId entry pending)).
Proof.
  intros f. induction pending as [|[k v] m [IH1 IH2]]; cbn [Map_set].
  - split.
    + intros d Hd. left. by apply list_elem_of_singleton in Hd.
    + intros _ _. apply NoDup_singleton.
  - case_decide; rewrite !fmap_cons; split.
    + intros d [->|Hd]%elem_of_cons; [by left|].
      right. by apply list_elem_of_further.
    + intros [Hv Hm]%NoDup_cons [_ Hnew]%not_elem_of_cons.
      by apply NoDup_cons.
    + intros d [->|Hd]%elem_of_cons; [right; apply list_elem_of_here|].
      destruct (IH1 d Hd) as [->|Hin]; [by left|].
      right. by apply list_elem_of_further.
    + intros [Hv Hm]%NoDup_cons [Hne Hnew]%not_elem_of_cons.
      apply NoDup_cons. split; [|by apply IH2].
      intros Hin. destruct (IH1 _ Hin) as [Heq|Hin']; [|done].
      by apply Hne.
Qed.

Lemma NoDup_fmap_elem_inj {A B} (f : A → B) (l : list A) (x y : A) :
  NoDup (f <$> l) → x ∈ l → y ∈ l → f x = f y → x = y.
Proof.
  induction l as [|a m IH]; [by intros _ ?%elem_of_nil|].
  rewrite fmap_cons. intros [Ha Hm]%NoDup_cons.
  intros [->|Hx]%elem_of_cons [->|Hy]%elem_of_cons Heq; [done|..].
  - destruct Ha. rewrite Heq. by apply list_elem_of_fmap_2.
  - destruct Ha. rewrite <- Heq. by apply list_elem_of_fmap_2.
  - by apply IH.
Qed.

(** the promises of a table after [delete] *)
Lemma parked_delete (requestId : string) (entry : PendingRequest)
    (pending : list (string * PendingRequest)) :
  let f := λ e : string * PendingRequest, resolve e.2 in
  Map_get requestId pending = Some entry →
  NoDup (f <$> pending) →
  (resolve entry ∈ f <$> pending)
  ∧ NoDup (f <$> Map_delete requestId pending)
  ∧ (∀ d, d ∈ f <$> Map_delete requestId pending →
          d ∈ f <$> pending ∧ d ≠ resolve entry).
Proof.
  intros f Hget Hnodup.
  pose proof (Map_get_Some_elem _ _ _ Hget) as Hin.
  split; [by apply (list_elem_of_fmap_2 f) in Hin|]. split.
  - eapply sublist_NoDup; [done|]. apply fmap_sublist, sublist_filter.
  - intros d ([k v] & -> & [Hk Hkv]%list_elem_of_filter)%list_elem_of_fmap.
    split; [by apply (list_elem_of_fmap_2 f) in Hkv|].
    intros Heq. apply Hk.
    by pose proof (NoDup_fmap_elem_inj f pending (k, v) (requestId, entry)
                     Hnodup Hkv Hin Heq) as [= -> ->].
Qed.

(** one step: it resolves promises of pending requests only, each once,
    and the requests still pending afterwards are unresolved ones or the
    one the step parked *)
Lemma step_parked c s :
  NoDup (parked s ++ created [c]) →
  NoDup (resolved (step c s).2)
  ∧ (∀ d, d ∈ resolved (step c s).2 → d ∈ parked s)
  ∧ NoDup (parked (step c s).1)
  ∧ (∀ d, d ∈ parked (step c s).1 →
          d ∈ parked s ++ created [c] ∧ d ∉ resolved (step c s).2).
Proof.
  intros Hnodup.
  destruct (leaves_pending c) eqn:Hc.
  { destruct (step_leaves_pending c s Hc) as [Hp Hr].
    unfold parked. rewrite Hp, Hr.
    apply NoDup_app in Hnodup as (Hs & _ & _).
    split; [apply NoDup_nil_2|]. split; [by intros d ?%elem_of_nil|].
    split; [done|]. intros d Hd. split; [|apply not_elem_of_nil].
    apply elem_of_app. by left. }
  destruct c as [config qr|prompt qr|csid prompt cwd qr| | |rid b u m
                 |rid answers|name input opts d0|item];
    try discriminate Hc.
  - (* close *)
    unfold step. rewrite close_effects. cbn [fst snd].
    cbn [created omap] in Hnodup. rewrite app_nil_r in Hnodup.
    assert (Hres : resolved
        (from_option (λ q, [QueryClose q]) [] (activeQuery s)
         ++ ((λ entry : string * PendingRequest,
               Resolve (resolve entry.2) (Deny "Session closed"))
             <$> pendingRequests s)
         ++ [Send (SessionStatusEvent (sessionId s) closed)]) = parked s).
    { unfold resolved, parked. rewrite !omap_app.
      destruct (activeQuery s); cbn; rewrite app_nil_r;
        induction (pendingRequests s) as [|e m IH]; cbn; by rewrite ?IH. }
    rewrite Hres. split; [done|]. split; [done|].
    split; [apply NoDup_nil_2|]. by intros d ?%elem_of_nil.
  - (* resolvePermission *)
    cbn [created omap] in Hnodup. rewrite app_nil_r in Hnodup.
    destruct (Map_get rid (pendingRequests s)) as [entry|] eqn:Hget.
    + destruct (resolve_present s rid (call_resolvePermission rid b u m)
                  entry eq_refl Hget) as [r Hstep].
      rewrite Hstep. cbn [fst snd resolved omap]. unfold parked.
      cbn [pendingRequests set_pendingRequests].
      destruct (parked_delete rid entry _ Hget Hnodup) as (Hin & Hnd & Hsub).
      split; [apply NoDup_singleton|].
      split; [by intros d ->%list_elem_of_singleton|].
      split; [done|]. intros d Hd. destruct (Hsub d Hd) as [Hd1 Hd2].
      split; [apply elem_of_app; by left|].
      by intros ->%list_elem_of_singleton.
    + unfold step. rewrite (resolve_absent s rid) by done.
      cbn. split; [apply NoDup_nil_2|].
      split; [by intros d ?%elem_of_nil|]. split; [done|].
      intros d Hd. split; [apply elem_of_app; by left|apply not_elem_of_nil].
  - (* resolveQuestion *)
    cbn [created omap] in Hnodup. rewrite app_nil_r in Hnodup.
    destruct (Map_get rid (pendingRequests s)) as [entry|] eqn:Hget.
    + destruct (resolve_present s rid (call_resolveQuestion rid answers)
                  entry eq_refl Hget) as [r Hstep].
      rewrite Hstep. cbn [fst snd resolved omap]. unfold parked.
      cbn [pendingRequests set_pendingRequests].
      destruct (parked_delete rid entry _ Hget Hnodup) as (Hin & Hnd & Hsub).
      split; [apply NoDup_singleton|].
      split; [by intros d ->%list_elem_of_singleton|].
      split; [done|]. intros d Hd. destruct (Hsub d Hd) as [Hd1 Hd2].
      split; [apply elem_of_app; by left|].
      by intros ->%list_elem_of_singleton.
    + unfold step. rewrite (resolve_absent s rid) by done.
      cbn. split; [apply NoDup_nil_2|].
      split; [by intros d ?%elem_of_nil|]. split; [done|].
      intros d Hd. split; [apply elem_of_app; by left|apply not_elem_of_nil].
  - (* the decision callback *)
    cbn [created omap] in Hnodup.
    apply NoDup_app in Hnodup as (Hs & Hdisj & _).
    assert (Hnew : d0 ∉ parked s).
    { intros Hin. apply (Hdisj _ Hin), list_elem_of_here. }
    set (rid := "req_" +:+ pretty (incr (requestCounter s))).
    assert (Hstep : ∃ effs, step (engine_canUseTool name input opts d0) s =
      (set_pendingRequests
         (Map_set rid {| resolve := d0; toolInput := input |}
            (pendingRequests s))
         (set_requestCounter (incr (requestCounter s)) s), effs)
      ∧ resolved effs = []).
    { unfold step. cbn. unfold handleCanUseTool, bind, this. cbn.
      destruct (String.eqb name "AskUserQuestion"); by eexists. }
    destruct Hstep as (effs & -> & Hres). cbn [fst snd]. rewrite Hres.
    unfold parked in *. cbn [pendingRequests set_pendingRequests].
    destruct (parked_set rid {| resolve := d0; toolInput := input |}
                (pendingRequests s)) as [Hsub Hnd].
    split; [apply NoDup_nil_2|]. split; [by intros d ?%elem_of_nil|].
    split; [by apply Hnd|]. intros d Hd. split; [|apply not_elem_of_nil].
    apply elem_of_app. destruct (Hsub d Hd) as [->|Hin]; [right|by left].
    apply list_elem_of_here.
Qed.

Lemma created_cons c (cs : list Call) :
  created (c :: cs) = created [c] ++ created cs.
Proof. unfold created. cbn. by destruct c. Qed.

(** along a run, a promise is resolved at most once, and only promises of
    requests that were pending or got parked are resolved *)
Lemma run_resolves_once (cs : list Call) s :
  NoDup (parked s ++ created cs) →
  NoDup (resolved (run cs s).2)
  ∧ ∀ d, d ∈ resolved (run cs s).2 → d ∈ parked s ++ created cs.
Proof.
  revert s; induction cs as [|c cs IH]; intros s Hnodup.
  { cbn. split; [apply NoDup_nil_2|]. by intros d ?%elem_of_nil. }
  rewrite created_cons in Hnodup |- *.
  assert (Hstep : NoDup (parked s ++ created [c])).
  { rewrite app_assoc in Hnodup. by apply NoDup_app in Hnodup as (? & _ & _). }
  destruct (step_parked c s Hstep) as (Hr1 & Hsub1 & Hp1 & Hsub2).
  cbn [run]. destruct (step c s) as [s1 e1]. cbn [fst snd] in *.
  assert (Hnext : NoDup (parked s1 ++ created cs)).
  { apply NoDup_app. split; [done|]. split.
    - intros d Hd Hcs. destruct (Hsub2 d Hd) as [Hin _].
      rewrite app_assoc in Hnodup.
      apply NoDup_app in Hnodup as (_ & Hdisj & _). by apply (Hdisj d).
    - apply NoDup_app in Hnodup as (_ & _ & Hcs).
      by apply NoDup_app in Hcs as (_ & _ & ?). }
  destruct (IH s1 Hnext) as [Hr2 Hsub3].
  destruct (run cs s1) as [s2 e2]. cbn [fst snd] in *.
  unfold resolved in *. rewrite omap_app. split.
  - apply NoDup_app. split; [done|]. split; [|done].
    intros d Hd1 Hd2. apply Hsub3, elem_of_app in Hd2 as [Hd2|Hd2].
    + by destruct (Hsub2 d Hd2) as [_ Hnot].
    + apply NoDup_app in Hnodup as (_ & Hdisj & _).
      apply (Hdisj d); [by apply Hsub1|]. apply elem_of_app. by right.
  - intros d [Hd|Hd]%elem_of_app.
    + apply elem_of_app. left. by apply Hsub1.
    + apply Hsub3, elem_of_app in Hd as [Hd|Hd].
      * destruct (Hsub2 d Hd) as [Hin _]. rewrite app_assoc.
        apply elem_of_app. by left.
      * apply elem_of_app. right. apply elem_of_app. by right.
Qed.

(** X2. In the whole life of a session no decision is resolved twice:
    when the promises that the decision callback returned are distinct,
    the promises resolved, by responses and by [close], are distinct too,
    whatever is called on the session and in whatever order. *)
Corollary decisions_resolved_at_most_once
    (sid : string) (sink : Sink) (cwd : string) (cs : list Call) :
  NoDup (created cs) →
  NoDup (resolved (run cs (new_AgentSession sid sink cwd)).2).
Proof. intros Hnodup. by apply run_resolves_once. Qed.

(** forwarding content blocks sends events of this session only *)
Lemma forward_blocks_scoped (uuid : string) (blocks : list ContentBlock) :
  ∀ parts s, ∃ parts' effs,
    forward_blocks uuid blocks parts s = (Normal parts', s, effs)
    ∧ scoped_to (sessionId s) effs.
Proof.
  induction blocks as [|b bs IH]; intros parts s.
  { eexists _, _. split; [done|]. apply Forall_nil_2. }
  destruct b as [text|id name input|tid content is_error|];
    cbn [forward_blocks]; unfold bind, this, send, effect; cbn.
  - destruct (IH (parts ++ [text]) s) as (p & e & -> & He). by eexists _, _.
  - destruct (IH parts s) as (p & e & -> & He). eexists _, _.
    split; [done|]. by apply Forall_cons.
  - destruct (IH parts s) as (p & e & -> & He). eexists _, _.
    split; [done|]. by apply Forall_cons.
  - destruct (IH parts s) as (p & e & -> & He). by eexists _, _.
Qed.

Lemma enter_scoped c s :
  ∃ comp s' effs,
    enter c s = (comp, s', effs)
    ∧ sessionId s' = sessionId s
    ∧ scoped_to (sessionId s) effs.
Proof.
  unfold scoped_to.
  destruct c as [config qr|prompt qr|csid prompt cwd qr| | |rid b u m
                 |rid answers|name input opts d|item]; cbn [enter].
  - destruct qr; cbn; eexists _, _, _; (split; [done|]); split; [done| |done|];
      by repeat constructor.
  - unfold sendPrompt, bind, this. cbn.
    destruct (falsy (claudeSessionId s));
      [eexists _, _, _; split; [done|]; by repeat constructor|].
    destruct qr; cbn; eexists _, _, _; (split; [done|]); split; [done| |done|];
      by repeat constructor.
  - destruct qr; cbn; eexists _, _, _; (split; [done|]); split; [done| |done|];
      by repeat constructor.
  - unfold interrupt, bind, this. cbn.
    destruct (activeQuery s); cbn; eexists _, _, _; (split; [done|]);
      by repeat constructor.
  - pose proof (close_effects s) as Hclose. cbn [enter] in Hclose.
    rewrite Hclose. eexists _, _, _. split; [done|]. split; [done|].
    apply Forall_app. split; [by destruct (activeQuery s); repeat constructor|].
    apply Forall_app. split; [|by repeat constructor].
    apply Forall_fmap, Forall_forall. by intros entry _.
  - unfold resolvePermission, bind, this. cbn.
    destruct (Map_get rid (pendingRequests s));
      [|eexists _, _, _; split; [done|]; by repeat constructor].
    destruct b; cbn; eexists _, _, _; (split; [done|]); by repeat constructor.
  - unfold resolveQuestion, bind, this. cbn.
    destruct (Map_get rid (pendingRequests s)); cbn; eexists _, _, _;
      (split; [done|]); by repeat constructor.
  - unfold handleCanUseTool, bind, this. cbn.
    destruct (String.eqb name "AskUserQuestion"); cbn; eexists _, _, _;
      (split; [done|]); by repeat constructor.
  - destruct item as [msg| |e];
      [|cbn; eexists _, _, _; (split; [done|]); by repeat constructor..].
    destruct msg as [subtype id tools model cwd|uuid content| | | |];
      try (cbn; eexists _, _, _; (split; [done|]); by repeat constructor).
    destruct content as [blocks|];
      [|cbn; eexists _, _, _; (split; [done|]); by repeat constructor].
    unfold runQuery_next, try_catch_finally. cbn [forwardMessage].
    unfold handleAssistantMessage, bind at 1. unfold bind at 1.
    destruct (forward_blocks_scoped uuid blocks [] s)
      as (parts & e1 & -> & He).
    unfold bind, this. cbn. case_decide; cbn; eexists _, _, _;
      (split; [done|]); (split; [done|]); rewrite ?app_nil_r; try done.
    apply Forall_app. split; [done|]. by repeat constructor.
Qed.

(** a session keeps its id, and every event it sends carries it *)
Lemma step_scoped c s :
  sessionId (step c s).1 = sessionId s
  ∧ scoped_to (sessionId s) (step c s).2.
Proof.
  unfold step. by destruct (enter_scoped c s) as (comp & s' & effs & -> & ? & ?).
Qed.

End SessionRuns.

(** ** Request ids *)

Section RequestIds.
Import Js Protocol AgentSession.

Implicit Types (s : AgentSession) (c : Call) (n : N).

Lemma request_id_inj n m : request_id n = request_id m → n = m.
Proof. unfold request_id. cbn. intros [= H]. by apply (inj pretty). Qed.

Lemma incr_ge n : (n ≤ incr n)%N.
Proof. unfold incr. destruct (n <? 2 ^ 53)%N; lia. Qed.

Lemma incr_below n : (incr n < 2 ^ 53)%N → incr n = (n + 1)%N.
Proof. unfold incr. destruct (N.ltb_spec n (2 ^ 53)); [done|lia]. Qed.

Lemma Map_get_None_delete {V} (k k' : string) (m : list (string * V)) :
  Map_get k m = None → Map_get k (Map_delete k' m) = None.
Proof.
  intros Hget. destruct (decide (k' = k)) as [->|Hne].
  - apply Map_get_delete.
  - by rewrite Map_get_delete_ne.
Qed.

Lemma elem_of_Map_set {V} (k k' : string) (v v' : V) (m : list (string * V)) :
  (k', v') ∈ Map_set k v m → (k', v') = (k, v) ∨ (k', v') ∈ m.
Proof.
  induction m as [|[k1 v1] m IH]; cbn [Map_set].
  - intros ->%list_elem_of_singleton. by left.
  - case_decide.
    + intros [->|Hin]%elem_of_cons; [by left|].
      right. by apply list_elem_of_further.
    + intros [->|Hin]%elem_of_cons; [right; apply list_elem_of_here|].
      destruct (IH Hin) as [->|Hm]; [by left|].
      right. by apply list_elem_of_further.
Qed.

(** what a step does to the table and the counter, call by call *)
Lemma step_table c s :
  (pendingRequests (step c s).1 = pendingRequests s
   ∨ pendingRequests (step c s).1 = []
   ∨ ∃ k, pendingRequests (step c s).1 = Map_delete k (pendingRequests s))
  ∧ requestCounter (step c s).1 = requestCounter s
  ∨ ∃ entry,
      pendingRequests (step c s).1 =
        Map_set (request_id (incr (requestCounter s))) entry
          (pendingRequests s)
      ∧ requestCounter (step c s).1 = incr (requestCounter s).
Proof.
  destruct (leaves_pending c) eqn:Hc.
  { left. unfold step.
    destruct (enter_leaves_pending c s Hc)
      as (comp & s' & effs & -> & Hp & Hctr & _).
    cbn [fst]. split; [by left|done]. }
  destruct c as [config qr|prompt qr|csid prompt cwd qr| | |rid b u m
                 |rid answers|name input opts d|item]; try discriminate Hc.
  - left. unfold step. rewrite close_effects. cbn. split; [|done].
    right. by left.
  - left. unfold step. cbn. unfold resolvePermission, bind, this. cbn.
    destruct (Map_get rid (pendingRequests s)); [|by split; [left|]].
    destruct b; cbn; (split; [|done]); right; right; by eexists.
  - left. unfold step. cbn. unfold resolveQuestion, bind, this. cbn.
    destruct (Map_get rid (pendingRequests s)); [|by split; [left|]].
    cbn. split; [|done]. right; right; by eexists.
  - right. unfold step. cbn. unfold handleCanUseTool, bind, this. cbn.
    destruct (String.eqb name "AskUserQuestion"); by eexists.
Qed.

Lemma step_counter_mono c s :
  (requestCounter s ≤ requestCounter (step c s).1)%N.
Proof.
  destruct (step_table c s) as [[_ ->]|(entry & _ & ->)];
    [done|apply incr_ge].
Qed.

Lemma run_counter_mono (cs : list Call) s :
  (requestCounter s ≤ requestCounter (run cs s).1)%N.
Proof.
  revert s; induction cs as [|c cs IH]; intros s; cbn [run]; [done|].
  pose proof (step_counter_mono c s) as H1.
  destruct (step c s) as [s1 e1]. specialize (IH s1).
  destruct (run cs s1) as [s2 e2]. cbn [fst] in *. lia.
Qed.

(** the ids in the table are ids given out: an invariant *)
Lemma issued_new (sid : string) (sink : Sink) (cwd : string) :
  issued (new_AgentSession sid sink cwd).
Proof. by intros k v ?%elem_of_nil. Qed.

Lemma issued_step c s : issued s → issued (step c s).1.
Proof.
  intros Hs k v Hin.
  destruct (step_table c s) as [[Htable Hctr]|(entry & Htable & Hctr)];
    rewrite Hctr; rewrite Htable in Hin || destruct Htable as [Ht|[Ht|[k' Ht]]];
    try rewrite Ht in Hin.
  - by apply Hs in Hin.
  - by apply elem_of_nil in Hin.
  - unfold Map_delete in Hin. apply list_elem_of_filter in Hin as [_ Hin].
    by apply Hs in Hin.
  - apply elem_of_Map_set in Hin as [[= -> ->]|Hin].
    + by eexists.
    + destruct (Hs k v Hin) as (n & -> & Hn). exists n. split; [done|].
      pose proof (incr_ge (requestCounter s)). lia.
Qed.

Lemma issued_run (cs : list Call) s : issued s → issued (run cs s).1.
Proof.
  revert s; induction cs as [|c cs IH]; intros s Hs; cbn [run]; [done|].
  pose proof (issued_step c s Hs) as H1.
  destruct (step c s) as [s1 e1]. specialize (IH s1 H1).
  by destruct (run cs s1) as [s2 e2].
Qed.

(** below 2^53 decision callbacks, an id that is no longer pending never
    comes back *)
Lemma retired_step c s (id : string) :
  retired s id → (requestCounter (step c s).1 < 2 ^ 53)%N →
  retired (step c s).1 id.
Proof.
  intros (Hget & n & -> & Hn) Hbound.
  pose proof (step_counter_mono c s) as Hmono.
  split; [|exists n; split; [done|lia]].
  destruct (step_table c s) as [[Htable Hctr]|(entry & Htable & Hctr)].
  - destruct Htable as [->|[->|[k' ->]]]; [done|done|].
    by apply Map_get_None_delete.
  - rewrite Htable. rewrite Map_get_set_ne; [done|].
    intros Heq%request_id_inj. rewrite Hctr in Hbound.
    apply incr_below in Hbound. lia.
Qed.

Lemma retired_run (cs : list Call) s (id : string) :
  retired s id → (requestCounter (run cs s).1 < 2 ^ 53)%N →
  retired (run cs s).1 id.
Proof.
  revert s; induction cs as [|c cs IH]; intros s Hs; cbn [run]; [done|].
  pose proof (retired_step c s id Hs) as H1.
  destruct (step c s) as [s1 e1]. specialize (IH s1).
  pose proof (run_counter_mono cs s1) as Hmono.
  destruct (run cs s1) as [s2 e2]. cbn [fst] in *.
  intros Hbound. apply IH; [|done]. apply H1. lia.
Qed.

(** X3. Once a request of a session has been resolved, a later resolution for
    its id does nothing, whatever the session went through before and in
    between, as long as it has given out fewer than 2^53 ids. *)
Lemma resolved_id_stays_resolved
    (sid : string) (sink : Sink) (cwd : string)
    (history between : list Call) (id : string) (c c' : Call)
    (pending : PendingRequest) :
  let s := (run history (new_AgentSession sid sink cwd)).1 in
  let s2 := (run between (step c s).1).1 in
  resolves id c → resolves id c' →
  Map_get id (pendingRequests s) = Some pending →
  (requestCounter s2 < 2 ^ 53)%N →
  step c' s2 = (s2, []).
Proof.
  intros s s2 Hc Hc' Hget Hbound.
  assert (Hissued : issued s) by apply issued_run, issued_new.
  destruct (Hissued id pending (Map_get_Some_elem _ _ _ Hget))
    as (n & Hid & Hn).
  destruct (resolve_present s id c pending Hc Hget) as [r Hstep].
  assert (Hretired : retired (step c s).1 id).
  { rewrite Hstep. cbn. split; [apply Map_get_delete|by exists n]. }
  destruct (retired_run between _ id Hretired Hbound) as [Habsent _].
  unfold step. by rewrite (resolve_absent s2 id c' Hc' Habsent).
Qed.

End RequestIds.

(** ** The Broker *)

Section ServerFacts.
Import Js Protocol AgentSession AgentServer.

Lemma startSession_registered
    (w : World) (config : StartSessionConfig) (transport : nat)
    (qr : QueryResult) (ref : nat) :
  sessions w !! cfg_sessionId config = Some ref →
  startSession config transport qr w =
    (w, [transport_send transport
           (ErrorEvent (cfg_sessionId config)
              ("Session '" +:+ cfg_sessionId config +:+ "' already exists")
              None)]).
Proof.
  intros Hreg. unfold startSession.
  rewrite Hreg. by rewrite decide_True by done.
Qed.

(** C5. A [start_session] whose id is registered is answered with one
    [error] event carrying that id, sent on the connection the message
    came from, and nothing else happens: no session object is made, the
    registry and every session object (so the pending requests of the
    registered one) are as before, and no session sends, resolves or
    calls anything. *)
Theorem start_session_duplicate_rejected
    (w : World) (config : StartSessionConfig) (transport : nat)
    (qr : QueryResult) (ref : nat) :
  sessions w !! cfg_sessionId config = Some ref →
  handleMessage (StartSessionMessage config) transport qr w =
    (w, [transport_send transport
           (ErrorEvent (cfg_sessionId config)
              ("Session '" +:+ cfg_sessionId config +:+ "' already exists")
              None)]).
Proof. intros Hreg. cbn [handleMessage]. by eapply startSession_registered. Qed.

(** C6. For a session id that is not registered, [send_prompt],
    [interrupt], [permission_response] and [question_response] are
    dropped: a line is logged, nothing is sent on any connection and
    nothing changes; [close_session] is answered with one [error] event
    carrying the id, sent on the connection the message came from. *)
Theorem unknown_session_dropped_or_reported
    (w : World) (msg : InboundMessage) (transport : nat) (qr : QueryResult) :
  sessions w !! in_sessionId msg = None →
  (best_effort msg = true →
     handleMessage msg transport qr w =
       (w, [console_error
              ("[server] session '" +:+ in_sessionId msg +:+ "' not found")])
     ∧ ∀ t, omap (sent_to t) (handleMessage msg transport qr w).2 = [])
  ∧ (∀ sid, msg = CloseSessionMessage sid →
       handleMessage msg transport qr w =
         (w, [transport_send transport
                (ErrorEvent sid ("Session '" +:+ sid +:+ "' not found")
                   None)])).
Proof.
  intros Hnone. split.
  - intros Hmsg.
    assert (Heq : handleMessage msg transport qr w =
      (w, [console_error
             ("[server] session '" +:+ in_sessionId msg +:+ "' not found")])).
    { destruct msg; try done; simpl in *;
        unfold with_session, getSession; by rewrite Hnone. }
    split; [done|]. intros t. by rewrite Heq.
  - intros sid ->. simpl in *. unfold closeSession_call. by rewrite Hnone.
Qed.

(** C10. A [resume_session] whose id is registered is not rejected.  The
    server makes a new session object, puts it in the registry under
    the id in place of the old one, and runs [resume] on it.  The old
    session object is still in the store exactly as it was, its query
    not closed and its pending requests not resolved, but the registry
    no longer leads to it; every effect of the step is an effect of the
    new object: the server itself sends and logs nothing. *)
Theorem resume_session_overwrites_registered
    (w : World) (sessionId claudeSessionId prompt cwd : string)
    (transport : nat) (qr : QueryResult) (old : nat) (s_old : AgentSession) :
  sessions w !! sessionId = Some old →
  objects w !! old = Some s_old →
  let ref := fresh (dom (objects w)) in
  let s_new := (resumed w sessionId claudeSessionId prompt cwd transport qr).1 in
  let effs := (resumed w sessionId claudeSessionId prompt cwd transport qr).2 in
  let w' :=
    (handleMessage
       (ResumeSessionMessage sessionId claudeSessionId prompt cwd)
       transport qr w).1 in
  handleMessage (ResumeSessionMessage sessionId claudeSessionId prompt cwd)
    transport qr w =
    ({| sessions := <[sessionId := ref]> (sessions w);
        transports := transports w;
        objects := <[ref := s_new]> (objects w);
        process_cwd := process_cwd w |},
     session_effect ref (to_transport transport) <$> effs)
  ∧ ref ≠ old
  ∧ sessions w' !! sessionId = Some ref
  ∧ objects w' !! old = Some s_old
  ∧ (∀ id, id ≠ sessionId → sessions w' !! id = sessions w !! id)
  ∧ effs =
      Send (SessionStatusEvent sessionId processing)
        :: CallQuery prompt
             {| opt_cwd := cwd; opt_model := None; opt_permissionMode := None;
                opt_allowedTools := None; opt_settingSources := None;
                opt_systemPrompt := None; opt_includePartialMessages := true;
                opt_resume := Some claudeSessionId |}
        :: match qr with
           | Created _ => []
           | Raised err =>
               [Send (ErrorEvent sessionId (error_text err) None);
                Send (SessionStatusEvent sessionId idle)]
           end
  ∧ resolved effs = []
  ∧ (∀ q, QueryClose q ∉ effs).
Proof.
  intros Hreg Hold ref s_new effs w'.
  assert (Hfresh : objects w !! ref = None).
  { apply not_elem_of_dom, is_fresh. }
  assert (Hne : ref ≠ old) by congruence.
  assert (Heq : handleMessage
      (ResumeSessionMessage sessionId claudeSessionId prompt cwd)
      transport qr w =
    ({| sessions := <[sessionId := ref]> (sessions w);
        transports := transports w;
        objects := <[ref := s_new]> (objects w);
        process_cwd := process_cwd w |},
     session_effect ref (to_transport transport) <$> effs)).
  { cbn [handleMessage]. unfold resumeSession, new_session, call_session.
    cbn [set_sessions set_objects objects sessions transports process_cwd].
    fold ref. rewrite lookup_insert_eq.
    unfold s_new, effs, resumed.
    destruct (step _ _) as [s1 e1]. cbn.
    by rewrite insert_insert_eq. }
  split; [done|]. split; [done|]. unfold w'. rewrite Heq. cbn.
  split; [apply lookup_insert_eq|].
  split; [by rewrite lookup_insert_ne|].
  split; [intros id Hid; by rewrite lookup_insert_ne|].
  unfold effs, resumed. destruct qr as [q|e]; cbn.
  - split; [done|]. split; [done|]. intros q' Hin.
    by repeat (apply elem_of_cons in Hin as [?|Hin]; [done|]);
      apply elem_of_nil in Hin.
  - split; [done|]. split; [done|]. intros q' Hin.
    by repeat (apply elem_of_cons in Hin as [?|Hin]; [done|]);
      apply elem_of_nil in Hin.
Qed.

End ServerFacts.

(** ** More on the session *)

Section MoreSessionFacts.
Import Js Protocol AgentSession SessionReading.

Implicit Types (s : AgentSession) (c : Call).

(** X1. Every event that a session sends carries the id the session was
    constructed with, whatever is called on it and in whatever order, and
    the session never changes that id. *)
Theorem events_carry_session_id (cs : list Call) s :
  sessionId (run cs s).1 = sessionId s
  ∧ scoped_to (sessionId s) (run cs s).2.
Proof.
  revert s; induction cs as [|c cs IH]; intros s; cbn [run].
  { split; [done|]. apply Forall_nil_2. }
  destruct (step_scoped c s) as [Hid Hsc].
  destruct (step c s) as [s1 e1]. cbn [fst snd] in *.
  destruct (IH s1) as [Hid' Hsc'].
  destruct (run cs s1) as [s2 e2]. cbn [fst snd] in *.
  split; [congruence|]. apply Forall_app. split; [done|].
  unfold scoped_to in *. by rewrite <- Hid.
Qed.

(** the decision callback, as one equation *)
Lemma canUseTool_effects (toolName : string) (input : JsRecord)
    (opts : CanUseToolOpts) (d : Deferred) s :
  let requestId := request_id (incr (requestCounter s)) in
  enter (engine_canUseTool toolName input opts d) s =
    (Normal tt,
     set_pendingRequests
       (Map_set requestId {| resolve := d; toolInput := input |}
          (pendingRequests s))
       (set_requestCounter (incr (requestCounter s)) s),
     [Send (if String.eqb toolName "AskUserQuestion"
            then QuestionEvent (sessionId s) requestId
                   (Map_get "questions" input)
            else PermissionRequestEvent (sessionId s) requestId toolName
                   (JObj input) (toolUseID opts) (suggestions opts))]).
Proof.
  cbn. unfold handleCanUseTool, bind, this. cbn.
  by destruct (String.eqb toolName "AskUserQuestion").
Qed.

(** forwarding content blocks: the events of the tool blocks, in order,
    and the texts of the text blocks gathered at the end of [textParts] *)
Lemma forward_blocks_events (uuid : string) (blocks : list ContentBlock) :
  ∀ parts s,
    forward_blocks uuid blocks parts s =
      (Normal (parts ++ omap block_text blocks), s,
       Send <$> omap (block_event (sessionId s) uuid) blocks).
Proof.
  induction blocks as [|b bs IH]; intros parts s.
  { cbn. by rewrite app_nil_r. }
  destruct b as [text|id name input|tid content is_error|];
    cbn [forward_blocks]; unfold bind, this, send, effect; cbn;
    rewrite IH; cbn; by rewrite <- ?app_assoc.
Qed.

(** an assistant message, as one equation *)
Lemma yield_assistant_effects (uuid : string)
    (content : option (list ContentBlock)) s :
  enter (engine_next (Yield (SDKAssistantMessage uuid content))) s =
    (Await, s,
     (Send <$> omap (block_event (sessionId s) uuid) (default [] content))
       ++ match omap block_text (default [] content) with
          | [] => []
          | _ :: _ =>
              [Send (AssistantTextEvent (sessionId s) uuid
                       (join (omap block_text (default [] content))))]
          end).
Proof.
  destruct content as [blocks|]; [|done].
  cbn [default enter]. unfold runQuery_next, try_catch_finally.
  cbn [forwardMessage]. unfold handleAssistantMessage, bind at 1.
  unfold bind at 1. rewrite forward_blocks_events. cbn [app].
  unfold bind, this. cbn.
  destruct (omap block_text blocks) as [|t ts]; cbn.
  - case_decide; [lia|]. cbn. by rewrite !app_nil_r.
  - case_decide; [|lia]. cbn. by rewrite !app_nil_r.
Qed.

(** X9. An assistant message is forwarded as one [tool_use] event per
    tool-use block and one [tool_result] event per tool-result block, in
    the order of the blocks, followed, if the message has text blocks, by
    a single [assistant_text] event that holds their texts joined: the
    text comes last even where it preceded a tool block.  Content that is
    not an array is forwarded as nothing.  The state is unchanged and the
    loop awaits the next message. *)
Theorem assistant_message_events (uuid : string)
    (content : option (list ContentBlock)) s :
  let blocks := default [] content in
  let texts := omap block_text blocks in
  enter (engine_next (Yield (SDKAssistantMessage uuid content))) s =
    (Await, s,
     (Send <$> omap (block_event (sessionId s) uuid) blocks)
       ++ match texts with
          | [] => []
          | _ :: _ => [Send (AssistantTextEvent (sessionId s) uuid (join texts))]
          end).
Proof. intros blocks texts. apply yield_assistant_effects. Qed.

(** what forwarding one message of the iterator does *)
Lemma yield_effects (msg : SDKMessage) s :
  ∃ s' effs,
    enter (engine_next (Yield msg)) s = (Await, s', effs)
    ∧ activeQuery s' = activeQuery s
    ∧ pendingRequests s' = pendingRequests s
    ∧ requestCounter s' = requestCounter s
    ∧ lastCwd s' = lastCwd s
    ∧ statuses effs = [] ∧ announced effs = [] ∧ queries effs = []
    ∧ resolved effs = []
    ∧ sessionId s' = sessionId s.
Proof.
  destruct msg as [subtype id tools model cwd|uuid content| | | |];
    try by eexists _, _.
  rewrite yield_assistant_effects. eexists _, _. split; [done|].
  repeat (split; [done|]).
  assert (Hblocks : ∀ (f : Effect → option string) (g : Effect → option SessionStatus)
             (h : Effect → option (string * Options))
             (k : Effect → option Deferred) (bs : list ContentBlock),
    (∀ m, match m with
          | ToolUseEvent _ _ _ _ _ | ToolResultEvent _ _ _ _ _
          | AssistantTextEvent _ _ _ => f (Send m) = None ∧ g (Send m) = None
              ∧ h (Send m) = None ∧ k (Send m) = None
          | _ => True
          end) →
    omap f (Send <$> omap (block_event (sessionId s) uuid) bs) = []
    ∧ omap g (Send <$> omap (block_event (sessionId s) uuid) bs) = []
    ∧ omap h (Send <$> omap (block_event (sessionId s) uuid) bs) = []
    ∧ omap k (Send <$> omap (block_event (sessionId s) uuid) bs) = []).
  { intros f g h k bs Hf. induction bs as [|b bs IH]; [done|].
    destruct b as [text|id name input|tid c is_error|]; cbn; try done.
    - destruct (Hf (ToolUseEvent (sessionId s) uuid name
                      (default (JObj []) input) id)) as (-> & -> & -> & ->).
      done.
    - destruct (Hf (ToolResultEvent (sessionId s) uuid tid
                      (default JNull c) (default false is_error)))
        as (-> & -> & -> & ->).
      done. }
  unfold statuses, announced, queries, resolved. rewrite !omap_app.
  edestruct Hblocks as (-> & -> & -> & ->); [by intros []|].
  by destruct (omap block_text (default [] content)).
Qed.

Lemma announced_app (e1 e2 : list Effect) :
  announced (e1 ++ e2) = announced e1 ++ announced e2.
Proof. apply omap_app. Qed.

(** which calls give out a request id *)
Lemma step_announced c s :
  match c with
  | engine_canUseTool _ _ _ _ =>
      announced (step c s).2 = [request_id (incr (requestCounter s))]
      ∧ requestCounter (step c s).1 = incr (requestCounter s)
  | _ =>
      announced (step c s).2 = []
      ∧ requestCounter (step c s).1 = requestCounter s
  end.
Proof.
  unfold step.
  destruct c as [config qr|prompt qr|csid prompt cwd qr| | |rid b u m
                 |rid answers|name input opts d|item].
  - by destruct qr.
  - cbn. unfold sendPrompt, bind, this. cbn.
    destruct (falsy (claudeSessionId s)); [done|]. by destruct qr.
  - by destruct qr.
  - cbn. unfold interrupt, bind, this. cbn. by destruct (activeQuery s).
  - rewrite close_effects. cbn [fst snd]. split; [|done].
    unfold announced. rewrite !omap_app.
    destruct (activeQuery s); cbn;
      induction (pendingRequests s) as [|e m IH]; cbn; by rewrite ?IH.
  - destruct (Map_get rid (pendingRequests s)) as [entry|] eqn:Hget.
    + destruct (resolve_present s rid (call_resolvePermission rid b u m)
                  entry eq_refl Hget) as [r Hstep].
      unfold step in Hstep. destruct (enter _ s) as [[comp s'] effs].
      by injection Hstep as -> ->.
    + by rewrite (resolve_absent s rid).
  - destruct (Map_get rid (pendingRequests s)) as [entry|] eqn:Hget.
    + destruct (resolve_present s rid (call_resolveQuestion rid answers)
                  entry eq_refl Hget) as [r Hstep].
      unfold step in Hstep. destruct (enter _ s) as [[comp s'] effs].
      by injection Hstep as -> ->.
    + by rewrite (resolve_absent s rid).
  - rewrite canUseTool_effects. cbn.
    by destruct (String.eqb name "AskUserQuestion").
  - destruct item as [msg| |e]; [|done..].
    by destruct (yield_effects msg s)
      as (s' & effs & -> & _ & _ & ? & _ & _ & ? & _).
Qed.

(** X6. As long as a session has given out fewer than 2^53 request ids,
    the ids that it announces to the client, in [question] and
    [permission_request] events, are pairwise distinct, whatever else is
    called on the session in between. *)
Theorem announced_ids_distinct (cs : list Call) s :
  (requestCounter (run cs s).1 < 2 ^ 53)%N →
  NoDup (announced (run cs s).2).
Proof.
  intros Hbound.
  enough (NoDup (announced (run cs s).2)
          ∧ ∀ id, id ∈ announced (run cs s).2 →
              ∃ n, id = request_id n ∧ (requestCounter s < n)%N) by tauto.
  revert s Hbound; induction cs as [|c cs IH]; intros s Hbound;
    cbn [run] in Hbound |- *.
  { cbn. split; [apply NoDup_nil_2|]. by intros id ?%elem_of_nil. }
  pose proof (step_announced c s) as Hstep.
  pose proof (step_counter_mono c s) as Hmono.
  destruct (step c s) as [s1 e1]. cbn [run fst snd] in *.
  pose proof (run_counter_mono cs s1) as Hmono'.
  specialize (IH s1).
  destruct (run cs s1) as [s2 e2]. cbn [fst snd] in *.
  destruct (IH Hbound) as [Hnd Hids].
  rewrite announced_app.
  assert (Hcase :
    (announced e1 = [] ∧ requestCounter s1 = requestCounter s)
    ∨ (announced e1 = [request_id (incr (requestCounter s))]
       ∧ requestCounter s1 = incr (requestCounter s))).
  { destruct c; [left; exact Hstep..|right; exact Hstep|left; exact Hstep]. }
  destruct Hcase as [[-> Hctr]|[-> Hctr]]; cbn [app].
  - split; [done|]. intros id Hid. destruct (Hids id Hid) as (n & -> & Hn).
    exists n. split; [done|lia].
  - assert (Hincr : incr (requestCounter s) = (requestCounter s + 1)%N).
    { apply incr_below. lia. }
    split.
    + apply NoDup_cons. split; [|done]. intros Hin.
      destruct (Hids _ Hin) as (n & Heq%request_id_inj & Hn). lia.
    + intros id [->|Hid]%elem_of_cons.
      * eexists. split; [done|]. lia.
      * destruct (Hids id Hid) as (n & -> & Hn). exists n. split; [done|lia].
Qed.

(** X5. A permission response for the id that the decision callback
    announced settles exactly the promise that the callback returned, and
    takes the request off the table: [allow] resolves it with the updated
    input if the response has one and else with the tool input as the
    engine gave it, [deny] with the message of the response or else with
    [Denied by user]. *)
Theorem permission_round_trip (toolName : string) (input : JsRecord)
    (opts : CanUseToolOpts) (d : Deferred) (behavior : Behavior)
    (updatedInput : option JsRecord) (message : option string) s :
  let s1 := (step (engine_canUseTool toolName input opts d) s).1 in
  let requestId := request_id (requestCounter s1) in
  let s2 :=
    (step (call_resolvePermission requestId behavior updatedInput message)
       s1).1 in
  announced (step (engine_canUseTool toolName input opts d) s).2
    = [requestId]
  ∧ (step (call_resolvePermission requestId behavior updatedInput message)
       s1).2 =
      [Resolve d
         match behavior with
         | allow => Allow (default input updatedInput)
         | deny => Deny (default "Denied by user" message)
         end]
  ∧ Map_get requestId (pendingRequests s2) = None.
Proof.
  intros s1 requestId s2.
  assert (Hs1 : s1 =
    set_pendingRequests
      (Map_set (request_id (incr (requestCounter s)))
         {| resolve := d; toolInput := input |} (pendingRequests s))
      (set_requestCounter (incr (requestCounter s)) s)).
  { unfold s1, step. by rewrite canUseTool_effects. }
  assert (Hid : requestId = request_id (incr (requestCounter s))).
  { unfold requestId. by rewrite Hs1. }
  assert (Hget : Map_get requestId (pendingRequests s1)
                 = Some {| resolve := d; toolInput := input |}).
  { rewrite Hid, Hs1. cbn. apply Map_get_set. }
  split.
  { rewrite Hid. unfold step. rewrite canUseTool_effects. cbn.
    by destruct (String.eqb toolName "AskUserQuestion"). }
  assert (Hstep :
    step (call_resolvePermission requestId behavior updatedInput message) s1 =
      (set_pendingRequests (Map_delete requestId (pendingRequests s1)) s1,
       [Resolve d
          match behavior with
          | allow => Allow (default input updatedInput)
          | deny => Deny (default "Denied by user" message)
          end])).
  { unfold step. cbn [enter]. unfold resolvePermission, bind at 1, this.
    cbn. rewrite Hget. by destruct behavior. }
  unfold s2. rewrite Hstep. cbn [fst snd]. split; [done|].
  apply Map_get_delete.
Qed.

(** X7. Only [close], [resolvePermission], [resolveQuestion] and the
    decision callback have to do with the pending requests: a run of
    any other calls ([start], [sendPrompt], [resume], [interrupt], the
    messages and the end or failure of a query) leaves the table and the
    counter of request ids as they were, resolves no promise and
    announces no request. *)
Theorem other_calls_leave_pending (cs : list Call) s :
  Forall (λ c, leaves_pending c = true) cs →
  pendingRequests (run cs s).1 = pendingRequests s
  ∧ requestCounter (run cs s).1 = requestCounter s
  ∧ resolved (run cs s).2 = []
  ∧ announced (run cs s).2 = [].
Proof.
  intros Hcs. revert s. induction Hcs as [|c cs Hc _ IH]; intros s; [done|].
  cbn [run].
  destruct (step_leaves_pending c s Hc) as [Hp Hr].
  pose proof (step_announced c s) as Ha.
  assert (Ha' : announced (step c s).2 = []
                ∧ requestCounter (step c s).1 = requestCounter s)
    by (by destruct c).
  destruct Ha' as [Ha1 Ha2].
  destruct (step c s) as [s1 e1]. cbn [fst snd] in *.
  destruct (IH s1) as (IH1 & IH2 & IH3 & IH4).
  destruct (run cs s1) as [s2 e2]. cbn [fst snd] in *.
  unfold resolved in *. rewrite announced_app, omap_app, Hr, IH3, Ha1, IH4.
  split; [congruence|]. split; [congruence|done].
Qed.

(** X8. The conversation id that [sendPrompt] resumes is the one of the
    last [system] message that the engine sent: forwarding such a message
    sets it, to whatever the message holds, and no other call on the
    session changes it, [close] and a failing query included. *)
Theorem conversation_id_follows_system_messages c s :
  claudeSessionId (step c s).1 =
    match c with
    | engine_next (Yield (SDKSystemMessage _ session_id _ _ _)) =>
        Some session_id
    | _ => claudeSessionId s
    end.
Proof.
  destruct c as [config qr|prompt qr|csid prompt cwd qr| | |rid b u m
                 |rid answers|name input opts d|item];
    try (by apply only_system_event_captures_id).
  destruct item as [msg| |e];
    try (by apply only_system_event_captures_id).
  destruct msg; try (by apply only_system_event_captures_id). done.
Qed.

(** X11. The working directory in which [sendPrompt] resumes is the one
    of the last [start] or [resume]: these two set it, to the directory
    they were given, before the query is even created, and no other call
    on the session changes it. *)
Theorem working_directory_follows_start_and_resume c s :
  lastCwd (step c s).1 =
    match c with
    | call_start config _ => cfg_cwd config
    | call_resume _ _ cwd _ => cwd
    | _ => lastCwd s
    end.
Proof.
  unfold step.
  destruct c as [config qr|prompt qr|csid prompt cwd qr| | |rid b u m
                 |rid answers|name input opts d|item].
  - by destruct qr.
  - cbn. unfold sendPrompt, bind, this. cbn.
    destruct (falsy (claudeSessionId s)); [done|]. by destruct qr.
  - by destruct qr.
  - cbn. unfold interrupt, bind, this. cbn. by destruct (activeQuery s).
  - by rewrite close_effects.
  - destruct (Map_get rid (pendingRequests s)) as [entry|] eqn:Hget.
    + destruct (resolve_present s rid (call_resolvePermission rid b u m)
                  entry eq_refl Hget) as [r Hstep].
      unfold step in Hstep. destruct (enter _ s) as [[comp s'] effs].
      by injection Hstep as -> ->.
    + by rewrite (resolve_absent s rid).
  - destruct (Map_get rid (pendingRequests s)) as [entry|] eqn:Hget.
    + destruct (resolve_present s rid (call_resolveQuestion rid answers)
                  entry eq_refl Hget) as [r Hstep].
      unfold step in Hstep. destruct (enter _ s) as [[comp s'] effs].
      by injection Hstep as -> ->.
    + by rewrite (resolve_absent s rid).
  - by rewrite canUseTool_effects.
  - destruct item as [msg| |e]; [|done..].
    by destruct (yield_effects msg s)
      as (s' & effs & -> & _ & _ & _ & ? & _).
Qed.

(** the messages of a query, one after the other, send no status *)
Lemma yields_effects (msgs : list SDKMessage) s :
  statuses (run (engine_next ∘ Yield <$> msgs) s).2 = []
  ∧ queries (run (engine_next ∘ Yield <$> msgs) s).2 = []
  ∧ activeQuery (run (engine_next ∘ Yield <$> msgs) s).1 = activeQuery s
  ∧ sessionId (run (engine_next ∘ Yield <$> msgs) s).1 = sessionId s.
Proof.
  revert s; induction msgs as [|msg msgs IH]; intros s; [done|].
  rewrite fmap_cons. cbn [run compose]. unfold step.
  destruct (yield_effects msg s)
    as (s' & effs & -> & Hq & _ & _ & _ & Hst & _ & Hqs & _ & Hid).
  destruct (IH s') as (IH1 & IH2 & IH3 & IH4).
  destruct (run _ s') as [s2 e2]. cbn [fst snd] in *.
  unfold statuses, queries in *. rewrite !omap_app, Hst, Hqs, IH1, IH2.
  split; [done|]. split; [done|]. split; congruence.
Qed.

(** X10. A query that [start] creates and that runs to its end, or
    fails, after any number of messages gives the status events
    [started], [processing], [idle], in this order and no others; for
    [resume] they are [processing], [idle].  One query is created, with
    the prompt given, and none is active afterwards. *)
Theorem invocation_status_events (config : StartSessionConfig)
    (claudeSessionId prompt cwd : string) (q : Query)
    (msgs : list SDKMessage) (failure : option Thrown) s :
  let rest :=
    (engine_next ∘ Yield <$> msgs)
      ++ [engine_next (from_option Reject Return failure)] in
  (statuses (run (call_start config (Created q) :: rest) s).2
     = [started; processing; idle]
   ∧ (queries (run (call_start config (Created q) :: rest) s).2).*1
     = [cfg_prompt config]
   ∧ activeQuery (run (call_start config (Created q) :: rest) s).1 = None)
  ∧ (statuses
       (run (call_resume claudeSessionId prompt cwd (Created q) :: rest) s).2
     = [processing; idle]
     ∧ (queries
          (run (call_resume claudeSessionId prompt cwd (Created q) :: rest)
             s).2).*1
       = [prompt]
     ∧ activeQuery
         (run (call_resume claudeSessionId prompt cwd (Created q) :: rest)
            s).1 = None).
Proof.
  intros rest.
  assert (Hrest : ∀ s0,
    statuses (run rest s0).2 = [idle]
    ∧ queries (run rest s0).2 = []
    ∧ activeQuery (run rest s0).1 = None).
  { intros s0. unfold rest. rewrite run_app.
    destruct (yields_effects msgs s0) as (H1 & H2 & H3 & H4).
    destruct (run (engine_next ∘ Yield <$> msgs) s0) as [s1 e1].
    cbn [fst snd] in *.
    unfold statuses, queries in *. rewrite !omap_app, H1, H2.
    by destruct failure. }
  split.
  - cbn [run]. unfold step at 1 2 3. cbn [enter].
    destruct (start config (Created q) s) as [[comp s1] e1] eqn:Hstart.
    cbn in Hstart. injection Hstart as <- <- <-.
    destruct (Hrest (set_activeQuery (Some q) (set_lastCwd (cfg_cwd config) s)))
      as (H1 & H2 & H3).
    destruct (run rest _) as [s2 e2]. cbn [fst snd] in *.
    unfold statuses, queries in *. rewrite !omap_app, H1, H2. by cbn.
  - cbn [run]. unfold step at 1 2 3. cbn [enter].
    destruct (resume claudeSessionId prompt cwd (Created q) s)
      as [[comp s1] e1] eqn:Hresume.
    cbn in Hresume. injection Hresume as <- <- <-.
    destruct (Hrest (set_activeQuery (Some q) (set_lastCwd cwd s)))
      as (H1 & H2 & H3).
    destruct (run rest _) as [s2 e2]. cbn [fst snd] in *.
    unfold statuses, queries in *. rewrite !omap_app, H1, H2. by cbn.
Qed.

(** X12. [close] does not end the life of a session.  It keeps the
    conversation id, the working directory and the counter of request
    ids, so that a [sendPrompt] after it starts the same query as it would
    have before; and a query that was running when the session was closed
    still sends [idle] when it ends, after the [closed] status. *)
Theorem close_is_not_terminal (text : string) (qr : QueryResult) s :
  let s1 := (step call_close s).1 in
  claudeSessionId s1 = claudeSessionId s
  ∧ lastCwd s1 = lastCwd s
  ∧ requestCounter s1 = requestCounter s
  ∧ queries (step (call_sendPrompt text qr) s1).2
    = queries (step (call_sendPrompt text qr) s).2
  ∧ statuses (step (call_sendPrompt text qr) s1).2
    = statuses (step (call_sendPrompt text qr) s).2
  ∧ statuses (run [call_close; engine_next Return] s).2 = [closed; idle].
Proof.
  intros s1.
  assert (Hs1 : s1 = set_pendingRequests [] (set_activeQuery None s)).
  { unfold s1, step. by rewrite close_effects. }
  rewrite Hs1. cbn [claudeSessionId lastCwd requestCounter
                    set_pendingRequests set_activeQuery].
  repeat (split; [done|]).
  assert (Hsend : ∀ s0 s0',
    claudeSessionId s0' = claudeSessionId s0 → lastCwd s0' = lastCwd s0 →
    sessionId s0' = sessionId s0 →
    (step (call_sendPrompt text qr) s0').2
      = (step (call_sendPrompt text qr) s0).2).
  { intros s0 s0' Hc Hl Hi. unfold step. cbn [enter].
    unfold sendPrompt, bind, this. cbn.
    rewrite Hc, Hl, Hi. destruct (falsy (claudeSessionId s0)); [done|].
    destruct qr; cbn; by rewrite ?Hc, ?Hl, ?Hi. }
  rewrite (Hsend s (set_pendingRequests [] (set_activeQuery None s)))
    by done.
  repeat (split; [done|]).
  cbn [run]. unfold step. rewrite close_effects. cbn.
  unfold statuses. rewrite !omap_app. cbn.
  destruct (activeQuery s); cbn;
    induction (pendingRequests s) as [|e m IH]; cbn; by rewrite ?IH.
Qed.

Lemma Map_set_keys {V} (k : string) (v : V) (m : list (string * V)) :
  (∀ k', k' ∈ (Map_set k v m).*1 → k' = k ∨ k' ∈ m.*1)
  ∧ (NoDup m.*1 → NoDup (Map_set k v m).*1).
Proof.
  induction m as [|[k1 v1] m [IH1 IH2]]; cbn [Map_set].
  - split; [|intros _; apply NoDup_singleton].
    intros k' ?%list_elem_of_singleton. by left.
  - case_decide as Hk; rewrite !fmap_cons; cbn [fst].
    + subst k1. split; [by right|done].
    + split.
      * intros k' [->|Hin]%elem_of_cons; [right; apply list_elem_of_here|].
        destruct (IH1 k' Hin) as [->|?]; [by left|].
        right. by apply list_elem_of_further.
      * intros [Hk1 Hm]%NoDup_cons. apply NoDup_cons. split; [|by apply IH2].
        intros Hin. destruct (IH1 k1 Hin) as [->|?]; done.
Qed.

Lemma table_ok_step c s : table_ok s → table_ok (step c s).1.
Proof.
  intros [Hnd Hids].
  pose proof (incr_ge (requestCounter s)) as Hge.
  destruct (step_table c s) as [[Htable Hctr]|(entry & Htable & Hctr)];
    unfold table_ok; rewrite Hctr.
  - destruct Htable as [->|[->|[k ->]]].
    + done.
    + split; [apply NoDup_nil_2|]. by intros k v ?%elem_of_nil.
    + split.
      * eapply sublist_NoDup; [done|]. apply fmap_sublist, sublist_filter.
      * intros k' v [_ Hin]%list_elem_of_filter. by apply (Hids k' v).
  - rewrite Htable.
    split; [by apply (Map_set_keys (request_id (incr (requestCounter s)))
                        entry (pendingRequests s))|].
    intros k v [[= -> ->]|Hin]%elem_of_Map_set.
    + eexists. split; [done|]. split; [|done]. unfold incr.
      destruct (N.ltb_spec (requestCounter s) (2 ^ 53)); lia.
    + destruct (Hids k v Hin) as (n & -> & Hn). exists n. split; [done|lia].
Qed.

(** X13. At every moment of the life of a session, the table of pending
    requests holds no request id twice, and each id in it is [req_n] for
    some [n] between 1 and the number of ids the session has given out. *)
Theorem pending_table_well_formed
    (sid : string) (sink : Sink) (cwd : string) (cs : list Call) :
  table_ok (run cs (new_AgentSession sid sink cwd)).1.
Proof.
  assert (Hrun : ∀ s, table_ok s → table_ok (run cs s).1).
  { induction cs as [|c cs IH]; intros s Hs; cbn [run]; [done|].
    pose proof (table_ok_step c s Hs) as H1.
    destruct (step c s) as [s1 e1]. specialize (IH s1 H1).
    by destruct (run cs s1). }
  apply Hrun. split; [apply NoDup_nil_2|]. by intros k v ?%elem_of_nil.
Qed.

End MoreSessionFacts.

(** ** More on the framer *)

Section MoreFramerFacts.
Import Js NdjsonTransport.
Context {J : Type}.
Variable JSON_parse : jsstring → option J.
Variable JSON_stringify : J → jsstring.
Variable toString_utf8 : Buffer → jsstring.

(** X15. What a transport emits and keeps depends on the text received
    only, not on how the socket cut it into chunks: two sequences of
    [data] events whose decoded texts are the same text leave the same
    events and the same buffer. *)
Theorem chunking_is_irrelevant (t : Transport) (chunks chunks' : list Buffer) :
  LF ∉ buffer t →
  received toString_utf8 chunks = received toString_utf8 chunks' →
  feed JSON_parse toString_utf8 t chunks
    = feed JSON_parse toString_utf8 t chunks'.
Proof.
  intros Hbuf Htext. rewrite !(feed_drain _ _ _ _ Hbuf). by rewrite Htext.
Qed.

(** the loop consumes whole lines: what it leaves is what follows the
    last line feed *)
Lemma drain_consumed (b : jsstring) :
  ∃ consumed,
    b = consumed ++ (drain JSON_parse b).2
    ∧ (consumed = [] ∨ last consumed = Some LF)
    ∧ ((LF ∉ b) → consumed = [] ∧ (drain JSON_parse b).1 = []).
Proof.
  induction b as [b IH] using (induction_ltof1 _ (@length N)).
  unfold ltof in IH.
  destruct (indexOf LF b) as [i|] eqn:Hidx.
  - apply indexOf_Some in Hidx as (l & r & -> & Hnot & _).
    rewrite drain_line by done. cbn [fst snd].
    destruct (IH r) as (consumed & Hr & Hlast & _).
    { rewrite length_app. simpl. lia. }
    exists (l ++ LF :: consumed). split; [|split].
    + rewrite <- app_assoc. cbn. by rewrite <- Hr.
    + right. rewrite last_app, last_cons.
      destruct Hlast as [->|Hlast]; [done|]. by rewrite Hlast.
    + intros Hno. destruct Hno. apply elem_of_app. right.
      apply list_elem_of_here.
  - apply indexOf_None_inv in Hidx. rewrite drain_no_LF by done.
    exists []. split; [done|]. split; [by left|done].
Qed.

(** X16. After every [data] event the buffer holds no line feed: it is
    the incomplete line at the end of the text received so far, kept for
    the next event; everything before it, up to and including the last
    line feed, has been consumed.  A chunk that brings no line feed emits
    nothing.  The socket is not touched. *)
Theorem onData_keeps_incomplete_line (t : Transport) (chunk : Buffer) :
  let text := buffer t ++ toString_utf8 chunk in
  let evs := (onData JSON_parse toString_utf8 t chunk).1 in
  let t' := (onData JSON_parse toString_utf8 t chunk).2 in
  (LF ∉ buffer t')
  ∧ socket t' = socket t
  ∧ ∃ consumed,
      text = consumed ++ buffer t'
      ∧ (consumed = [] ∨ last consumed = Some LF)
      ∧ ((LF ∉ text) → evs = [] ∧ buffer t' = text).
Proof.
  intros text evs t'. unfold evs, t', onData. fold text.
  pose proof (drain_rest JSON_parse text) as Hrest.
  destruct (drain_consumed text) as (consumed & Htext & Hlast & Hnone).
  destruct (drain JSON_parse text) as [e b]. cbn [fst snd buffer socket] in *.
  split; [done|]. split; [done|]. exists consumed.
  split; [done|]. split; [done|]. intros Hno.
  destruct (Hnone Hno) as [-> ->]. split; [done|]. symmetry. exact Htext.
Qed.

(** the events of the loop, counted and bounded *)
Lemma drain_events (b : jsstring) :
  length (drain JSON_parse b).1 ≤ length (filter (λ c, c = LF) b)
  ∧ Forall (λ e, match e with
                 | message _ => True
                 | error err =>
                     ∃ line, err = lit "Invalid JSON: " ++ line
                             ∧ length line ≤ 200
                 | close => False
                 end) (drain JSON_parse b).1.
Proof.
  induction b as [b IH] using (induction_ltof1 _ (@length N)).
  unfold ltof in IH.
  destruct (indexOf LF b) as [i|] eqn:Hidx.
  - apply indexOf_Some in Hidx as (l & r & -> & Hnot & _).
    rewrite drain_line by done. cbn [fst snd].
    destruct (IH r) as [Hlen Hall].
    { rewrite length_app. simpl. lia. }
    rewrite filter_app, filter_cons_True by done.
    rewrite !length_app. cbn [length]. split.
    + unfold emit_line. case_decide; [|cbn; lia].
      destruct (JSON_parse (trim l)); cbn; lia.
    + apply Forall_app. split; [|done].
      unfold emit_line. case_decide; [|done].
      destruct (JSON_parse (trim l)); repeat constructor.
      eexists. split; [done|]. unfold slice_to. rewrite length_take. lia.
  - apply indexOf_None_inv in Hidx. rewrite drain_no_LF by done.
    cbn. split; [lia|done].
Qed.

(** X17. A [data] event emits at most one event per line feed in the
    text it drains, each a [message] or an [error], never a [close]; and
    the text of an [error] is [Invalid JSON: ] followed by at most 200
    code units of the offending line. *)
Theorem onData_events_bounded (t : Transport) (chunk : Buffer) :
  let text := buffer t ++ toString_utf8 chunk in
  let evs := (onData JSON_parse toString_utf8 t chunk).1 in
  length evs ≤ length (filter (λ c, c = LF) text)
  ∧ Forall (λ e, match e with
                 | message _ => True
                 | error err =>
                     ∃ line, err = lit "Invalid JSON: " ++ line
                             ∧ length line ≤ 200
                 | close => False
                 end) evs.
Proof.
  intros text evs. unfold evs, onData. fold text.
  pose proof (drain_events text) as H.
  by destruct (drain JSON_parse text).
Qed.

(** X18. [send] writes one string per message, its JSON text and a line
    feed, after what the socket was written before and in the order of
    the calls, as long as the socket is not destroyed; on a destroyed
    socket it does nothing at all.  It never touches the buffer of
    incoming text. *)
Theorem send_writes_one_line_each (t : Transport) (ms : list J) :
  buffer (foldl (send JSON_stringify) t ms) = buffer t
  ∧ destroyed (socket (foldl (send JSON_stringify) t ms))
    = destroyed (socket t)
  ∧ ended (socket (foldl (send JSON_stringify) t ms)) = ended (socket t)
  ∧ written (socket (foldl (send JSON_stringify) t ms)) =
      written (socket t)
        ++ (if destroyed (socket t) then []
            else (λ m, JSON_stringify m ++ [LF]) <$> ms).
Proof.
  destruct (destroyed (socket t)) eqn:Hd.
  - assert (Hsame : foldl (send JSON_stringify) t ms = t).
    { induction ms as [|m ms IH]; [done|]. cbn [foldl].
      unfold send at 2. by rewrite Hd. }
    rewrite Hsame, app_nil_r. by rewrite Hd.
  - by rewrite (written_sends _ _ _ Hd).
Qed.

End MoreFramerFacts.

(** ** More on the Broker *)

Section MoreServerFacts.
Import Js Protocol AgentSession AgentServer ServerReading.

Implicit Types (w : World) (s : AgentSession) (c : Call).

(** a session object keeps the sink it was constructed with *)
Lemma enter_sink c s :
  ∃ comp s' effs,
    enter c s = (comp, s', effs) ∧ sendToClient s' = sendToClient s.
Proof.
  destruct c as [config qr|prompt qr|csid prompt cwd qr| | |rid b u m
                 |rid answers|name input opts d|item]; cbn [enter].
  - destruct qr; cbn; by eexists _, _, _.
  - unfold sendPrompt, bind, this. cbn.
    destruct (falsy (claudeSessionId s)); [by eexists _, _, _|].
    destruct qr; cbn; by eexists _, _, _.
  - destruct qr; cbn; by eexists _, _, _.
  - unfold interrupt, bind, this. cbn.
    destruct (activeQuery s); cbn; by eexists _, _, _.
  - pose proof (close_effects s) as Hclose. cbn [enter] in Hclose.
    rewrite Hclose. by eexists _, _, _.
  - unfold resolvePermission, bind, this. cbn.
    destruct (Map_get rid (pendingRequests s)); [|by eexists _, _, _].
    destruct b; cbn; by eexists _, _, _.
  - unfold resolveQuestion, bind, this. cbn.
    destruct (Map_get rid (pendingRequests s)); cbn; by eexists _, _, _.
  - unfold handleCanUseTool, bind, this. cbn.
    destruct (String.eqb name "AskUserQuestion"); cbn; by eexists _, _, _.
  - destruct item as [msg| |e]; [|cbn; by eexists _, _, _..].
    destruct msg as [subtype id tools model cwd|uuid content| | | |];
      try (cbn; by eexists _, _, _).
    destruct content as [blocks|]; [|cbn; by eexists _, _, _].
    unfold runQuery_next, try_catch_finally. cbn [forwardMessage].
    unfold handleAssistantMessage, bind at 1. unfold bind at 1.
    destruct (forward_blocks_scoped uuid blocks [] s)
      as (parts & e1 & -> & He).
    unfold bind, this. cbn. case_decide; cbn; by eexists _, _, _.
Qed.

Lemma step_sink c s : sendToClient (step c s).1 = sendToClient s.
Proof.
  unfold step. by destruct (enter_sink c s) as (comp & s' & effs & -> & ?).
Qed.

Lemma call_session_transports w ref c :
  transports (call_session ref c w).1 = transports w
  ∧ process_cwd (call_session ref c w).1 = process_cwd w.
Proof.
  unfold call_session. destruct (objects w !! ref); [|done].
  by destruct (step c _).
Qed.

Lemma call_session_present w ref c s :
  objects w !! ref = Some s →
  call_session ref c w =
    (set_objects (<[ref := (step c s).1]> (objects w)) w,
     session_effect ref (sendToClient s) <$> (step c s).2).
Proof. intros Hs. unfold call_session. rewrite Hs. by destruct (step c s). Qed.

Lemma call_session_others w ref c ref' :
  ref' ≠ ref →
  objects (call_session ref c w).1 !! ref' = objects w !! ref'.
Proof.
  intros Hne. unfold call_session. destruct (objects w !! ref); [|done].
  destruct (step c _). cbn. by rewrite lookup_insert_ne.
Qed.

Lemma call_session_scoped w ref c s :
  objects w !! ref = Some s →
  Forall (effect_scoped (sessionId s)) (call_session ref c w).2.
Proof.
  intros Hs. rewrite (call_session_present _ _ _ _ Hs). cbn [snd].
  destruct (step_scoped c s) as [_ Hscoped].
  apply Forall_fmap. eapply Forall_impl; [exact Hscoped|].
  by intros [].
Qed.

Lemma call_session_registry_ok w ref c :
  registry_ok w → registry_ok (call_session ref c w).1.
Proof.
  intros Hok sid ref' Hreg. rewrite call_session_registry in Hreg.
  destruct (Hok sid ref' Hreg) as (s & Hs & Hid).
  destruct (decide (ref' = ref)) as [->|Hne].
  - exists (step c s).1. split; [by apply call_session_object|].
    by destruct (step_scoped c s) as [-> _].
  - exists s. by rewrite call_session_others.
Qed.

Lemma new_session_fresh (sessionId : string) (transport : nat) w :
  objects w !! (new_session sessionId transport w).1 = None.
Proof.
  cbn. apply not_elem_of_dom. apply is_fresh.
Qed.

(** registering a session just made keeps the registry sound *)
Lemma register_new_ok (sessionId : string) (transport : nat) w c :
  registry_ok w →
  registry_ok
    (call_session (new_session sessionId transport w).1 c
       (set_sessions
          (<[sessionId := (new_session sessionId transport w).1]>
             (sessions (new_session sessionId transport w).2))
          (new_session sessionId transport w).2)).1.
Proof.
  intros Hok. apply call_session_registry_ok.
  pose proof (new_session_fresh sessionId transport w) as Hfresh.
  cbn in *. intros sid ref Hreg. cbn in Hreg.
  destruct (decide (sid = sessionId)) as [->|Hne].
  - rewrite lookup_insert_eq in Hreg. injection Hreg as <-.
    cbn. rewrite lookup_insert_eq. by eexists.
  - rewrite lookup_insert_ne in Hreg by done.
    destruct (Hok sid ref Hreg) as (s & Hs & Hid).
    exists s. split; [|done]. cbn. rewrite lookup_insert_ne; [done|].
    intros <-. by rewrite Hfresh in Hs.
Qed.

Lemma with_session_present (sid : string) c w ref :
  sessions w !! sid = Some ref →
  with_session sid c w = call_session ref c w.
Proof.
  intros Hreg. unfold with_session, getSession. rewrite Hreg.
  by destruct (call_session ref c w).
Qed.

Lemma with_session_registry_ok (sid : string) c w :
  registry_ok w → registry_ok (with_session sid c w).1.
Proof.
  intros Hok. unfold with_session, getSession.
  destruct (sessions w !! sid) as [ref|]; [|done].
  pose proof (call_session_registry_ok w ref c Hok).
  by destruct (call_session _ _ _).
Qed.

Lemma handleMessage_registry_ok (msg : InboundMessage) (transport : nat)
    (qr : QueryResult) w :
  registry_ok w → registry_ok (handleMessage msg transport qr w).1.
Proof.
  intros Hok.
  destruct msg as [config|sid prompt|sid csid prompt cwd
                  |sid requestId behavior updatedInput message
                  |sid requestId answers|sid|sid]; cbn [handleMessage];
    try by apply with_session_registry_ok.
  - unfold startSession. case_decide; [done|]. by apply register_new_ok.
  - unfold resumeSession. by apply register_new_ok.
  - unfold closeSession_call.
    destruct (sessions w !! sid) as [ref|]; [|done].
    by apply call_session_registry_ok.
Qed.

Lemma closeSession_resumed_registry_ok (sid : string) w :
  registry_ok w → registry_ok (closeSession_resumed sid w).
Proof.
  intros Hok sid' ref Hreg. cbn in Hreg.
  apply lookup_delete_Some in Hreg as [_ Hreg]. by apply Hok.
Qed.

Lemma run_microtasks_registry_ok (ks : list string) w :
  registry_ok w → registry_ok (run_microtasks ks w).
Proof.
  revert w; induction ks as [|k ks IH]; intros w Hok; [done|].
  cbn. by apply IH, closeSession_resumed_registry_ok.
Qed.

Lemma handle_chunk_registry_ok (transport : nat)
    (msgs : list (InboundMessage * QueryResult)) w :
  registry_ok w → registry_ok (handle_chunk transport msgs w).1.1.
Proof.
  revert w; induction msgs as [|[msg qr] msgs IH]; intros w Hok;
    cbn [handle_chunk]; [done|].
  pose proof (handleMessage_registry_ok msg transport qr w Hok) as H1.
  destruct (handleMessage msg transport qr w) as [w1 e1].
  specialize (IH w1 H1).
  by destruct (handle_chunk transport msgs w1) as [[w2 e2] k2].
Qed.

Lemma server_step_registry_ok (i : ServerInput) w :
  registry_ok w → registry_ok (server_step i w).1.
Proof.
  intros Hok. destruct i as [t|t|t msgs|ref c]; cbn [server_step].
  - done.
  - done.
  - pose proof (handle_chunk_registry_ok t msgs w Hok) as H1.
    destruct (handle_chunk t msgs w) as [[w1 effs] ks].
    by apply run_microtasks_registry_ok.
  - by apply call_session_registry_ok.
Qed.

Lemma serve_registry_ok (inputs : list ServerInput) w :
  registry_ok w → registry_ok (serve inputs w).1.
Proof.
  revert w; induction inputs as [|i inputs IH]; intros w Hok;
    cbn [serve]; [done|].
  pose proof (server_step_registry_ok i w Hok) as H1.
  destruct (server_step i w) as [w1 e1]. specialize (IH w1 H1).
  by destruct (serve inputs w1).
Qed.

(** X19. Whatever a server is given after its construction (connections,
    chunks of messages, the engine entering session objects), every id
    in its registry refers to a session object that exists and that was
    constructed with that very id: between the events that the event
    loop delivers, and also in the middle of a chunk, after any number
    of its messages, when the continuations of [closeSession] have not
    run yet. *)
Theorem registry_refers_to_sessions_of_that_id
    (objs : gmap nat AgentSession) (cwd : string)
    (inputs : list ServerInput) :
  registry_ok (serve inputs (new_AgentServer objs cwd)).1
  ∧ ∀ transport msgs,
      registry_ok
        (handle_chunk transport msgs
           (serve inputs (new_AgentServer objs cwd)).1).1.1.
Proof.
  assert (Hok : registry_ok (serve inputs (new_AgentServer objs cwd)).1).
  { apply serve_registry_ok. intros sid ref Hreg. cbn in Hreg.
    by rewrite lookup_empty in Hreg. }
  split; [done|]. intros transport msgs.
  by apply handle_chunk_registry_ok.
Qed.

(** X20. When the registry is sound, whatever a message makes the
    process send, on any connection and by any session, carries the
    session id of that message: the server's own replies and the events
    of the session the message is routed to. *)
Theorem replies_carry_the_addressed_id
    (msg : InboundMessage) (transport : nat) (qr : QueryResult) w :
  registry_ok w →
  Forall (effect_scoped (in_sessionId msg))
    (handleMessage msg transport qr w).2.
Proof.
  intros Hok.
  assert (Hwith : ∀ sid c, Forall (effect_scoped sid) (with_session sid c w).2).
  { intros sid c. unfold with_session, getSession.
    destruct (sessions w !! sid) as [ref|] eqn:Hreg.
    - destruct (Hok sid ref Hreg) as (s & Hs & <-).
      pose proof (call_session_scoped w ref c s Hs).
      by destruct (call_session _ _ _).
    - by repeat constructor. }
  assert (Hnew : ∀ sid c,
    Forall (effect_scoped sid)
      (call_session (new_session sid transport w).1 c
         (set_sessions
            (<[sid := (new_session sid transport w).1]>
               (sessions (new_session sid transport w).2))
            (new_session sid transport w).2)).2).
  { intros sid c.
    apply (call_session_scoped _ _ _
             (new_AgentSession sid (to_transport transport) (process_cwd w))).
    cbn. apply lookup_insert_eq. }
  destruct msg as [config|sid prompt|sid csid prompt cwd|sid requestId behavior updatedInput message|sid requestId answers|sid|sid];
    cbn [handleMessage in_sessionId]; try apply Hwith.
  - unfold startSession. case_decide; [by repeat constructor|]. apply Hnew.
  - unfold resumeSession. apply Hnew.
  - unfold closeSession_call.
    destruct (sessions w !! sid) as [ref|] eqn:Hreg.
    + destruct (Hok sid ref Hreg) as (s & Hs & <-).
      by apply call_session_scoped.
    + by repeat constructor.
Qed.

(** X21. A [start_session] with an id that is not registered makes a new
    session object, at an address that held no object before, bound to
    the connection the message came from and with the working directory
    of the process; registers it under the id; and runs [start] on it.
    Every other session object, every other registry entry and the set
    of connections are as before. *)
Theorem start_session_fresh_registers
    (config : StartSessionConfig) (transport : nat) (qr : QueryResult) w :
  let sid := cfg_sessionId config in
  let ref := fresh (dom (objects w)) in
  let s0 := new_AgentSession sid (to_transport transport) (process_cwd w) in
  sessions w !! sid = None →
  objects w !! ref = None
  ∧ handleMessage (StartSessionMessage config) transport qr w =
      ({| sessions := <[sid := ref]> (sessions w);
          transports := transports w;
          objects := <[ref := (step (call_start config qr) s0).1]> (objects w);
          process_cwd := process_cwd w |},
       session_effect ref (to_transport transport)
         <$> (step (call_start config qr) s0).2).
Proof.
  intros sid ref s0 Hfree.
  split; [apply (new_session_fresh sid transport w)|].
  cbn [handleMessage]. unfold startSession. fold sid.
  rewrite decide_False by (rewrite Hfree; by intros [? ?]).
  cbn [new_session]. fold ref s0.
  rewrite (call_session_present _ _ _ s0) by apply lookup_insert_eq.
  cbn. unfold set_objects. cbn. by rewrite insert_insert_eq.
Qed.

(** X22. What a session does in answer to [send_prompt], [interrupt],
    [permission_response] or [question_response] goes through the sink
    the session was constructed with, whatever connection the message
    came from: when that sink is a connection, nothing is sent on any
    other connection.  The registry, the connections and every other
    session object are as before. *)
Theorem commands_answered_on_session_sink
    (msg : InboundMessage) (transport : nat) (qr : QueryResult) w
    (ref : nat) s :
  best_effort msg = true →
  sessions w !! in_sessionId msg = Some ref →
  objects w !! ref = Some s →
  let w' := (handleMessage msg transport qr w).1 in
  let effs := (handleMessage msg transport qr w).2 in
  Forall (λ e, ∃ e', e = session_effect ref (sendToClient s) e') effs
  ∧ (∀ t0 t, sendToClient s = to_transport t0 → t ≠ t0 →
       omap (sent_to t) effs = [])
  ∧ sessions w' = sessions w
  ∧ transports w' = transports w
  ∧ (∃ s', objects w' !! ref = Some s' ∧ sendToClient s' = sendToClient s)
  ∧ ∀ ref', ref' ≠ ref → objects w' !! ref' = objects w !! ref'.
Proof.
  intros Hbest Hreg Hs w' effs.
  assert (Hcall : ∃ c, handleMessage msg transport qr w = call_session ref c w).
  { destruct msg; try done; cbn [handleMessage in_sessionId] in *;
      rewrite (with_session_present _ _ _ _ Hreg); by eexists. }
  destruct Hcall as [c Hcall]. unfold w', effs. rewrite Hcall.
  assert (Heffs : Forall (λ e, ∃ e', e = session_effect ref (sendToClient s) e')
                    (call_session ref c w).2).
  { rewrite (call_session_present _ _ _ _ Hs). cbn [snd].
    apply Forall_fmap, Forall_true. intros e. by eexists. }
  split; [done|]. split; [|split; [|split; [|split]]].
  - intros t0 t Hsink Hne. rewrite Hsink in Heffs.
    induction Heffs as [|e l [e' ->] _ IH]; [done|].
    change (session_effect ref (to_transport t0) e' :: l)
      with ([session_effect ref (to_transport t0) e'] ++ l).
    rewrite omap_app, IH, app_nil_r.
    destruct e'; try done. cbn. by rewrite decide_False by done.
  - apply call_session_registry.
  - apply call_session_transports.
  - exists (step c s).1. split; [by apply call_session_object|].
    apply step_sink.
  - intros ref' Hne. by apply call_session_others.
Qed.

(** X23. [closeSession] on a registered id, as the event loop runs it.
    The call closes the session (so denies what is pending and sends
    [closed] through the session's sink) and returns with the session
    still registered: a [start_session] for the same id handled before
    the continuation of the [await] runs, that is one that came in the
    same chunk, is rejected as a duplicate.  The continuation then
    removes the id from the registry and touches nothing else; the two
    together are what the server does with a chunk that holds the
    [close_session] alone, and with the [start_session] behind it in the
    chunk the reply of the rejection comes on top. *)
Theorem close_session_unregisters_after_await
    (sessionId : string) (transport : nat) w (ref : nat) s :
  sessions w !! sessionId = Some ref →
  objects w !! ref = Some s →
  let w1 := (closeSession_call sessionId transport w).1 in
  let effs := (closeSession_call sessionId transport w).2 in
  effs = session_effect ref (sendToClient s) <$> (step call_close s).2
  ∧ sessions w1 = sessions w
  ∧ objects w1 !! ref = Some (step call_close s).1
  ∧ (∀ config transport' qr,
       cfg_sessionId config = sessionId →
       handleMessage (StartSessionMessage config) transport' qr w1 =
         (w1, [transport_send transport'
                 (ErrorEvent sessionId
                    ("Session '" +:+ sessionId +:+ "' already exists")
                    None)]))
  ∧ (∀ qr,
       server_step
         (on_message transport (CloseSessionMessage sessionId) qr) w
       = (closeSession_resumed sessionId w1, effs))
  ∧ (∀ config qr qr',
       cfg_sessionId config = sessionId →
       server_step
         (on_data transport [(CloseSessionMessage sessionId, qr);
                             (StartSessionMessage config, qr')]) w
       = (closeSession_resumed sessionId w1,
          effs ++ [transport_send transport
                     (ErrorEvent sessionId
                        ("Session '" +:+ sessionId +:+ "' already exists")
                        None)]))
  ∧ sessions (closeSession_resumed sessionId w1) = delete sessionId (sessions w)
  ∧ objects (closeSession_resumed sessionId w1) = objects w1.
Proof.
  intros Hreg Hs w1 effs.
  assert (Hcall : closeSession_call sessionId transport w
                  = call_session ref call_close w).
  { unfold closeSession_call. by rewrite Hreg. }
  assert (Hsess : sessions w1 = sessions w).
  { unfold w1. rewrite Hcall. apply call_session_registry. }
  assert (Hstart : ∀ config transport' qr,
    cfg_sessionId config = sessionId →
    handleMessage (StartSessionMessage config) transport' qr w1 =
      (w1, [transport_send transport'
              (ErrorEvent sessionId
                 ("Session '" +:+ sessionId +:+ "' already exists")
                 None)])).
  { intros config transport' qr <-. cbn [handleMessage].
    apply (startSession_registered _ _ _ _ ref). by rewrite Hsess. }
  assert (Hawaits : closeSession_awaits sessionId w = true).
  { unfold closeSession_awaits. apply bool_decide_eq_true_2.
    by rewrite Hreg. }
  split; [unfold effs; by rewrite Hcall, (call_session_present _ _ _ _ Hs)|].
  split; [done|].
  split; [unfold w1; rewrite Hcall; by apply call_session_object|].
  split; [done|]. split; [|split; [|split]].
  - intros qr. unfold on_message.
    cbn [server_step handle_chunk handleMessage continuations].
    rewrite Hawaits. unfold w1, effs.
    destruct (closeSession_call sessionId transport w) as [w' e'].
    cbn. by rewrite ?app_nil_r.
  - intros config qr qr' Hid.
    cbn [server_step handle_chunk continuations].
    rewrite Hawaits.
    change (handleMessage (CloseSessionMessage sessionId) transport qr w)
      with (closeSession_call sessionId transport w).
    pose proof (Hstart config transport qr' Hid) as Hrej.
    unfold w1 in Hrej. unfold w1, effs.
    destruct (closeSession_call sessionId transport w) as [w' e'].
    cbn [fst snd] in *. rewrite Hrej. cbn. by rewrite ?app_nil_r.
  - cbn. by rewrite Hsess.
  - done.
Qed.

(** the engine entering a session object and the continuation of
    [closeSession] do not see each other: whichever of the two microtasks
    comes first, the state and the effects are the same *)
Lemma closeSession_resumed_call_session (sid : string) (ref : nat) c w :
  call_session ref c (closeSession_resumed sid w)
  = (closeSession_resumed sid (call_session ref c w).1,
     (call_session ref c w).2).
Proof.
  unfold call_session, closeSession_resumed. cbn.
  destruct (objects w !! ref) as [s|]; [|done]. by destruct (step c s).
Qed.

Lemma handle_chunk_app (transport : nat)
    (before after : list (InboundMessage * QueryResult)) w :
  handle_chunk transport (before ++ after) w =
    (let '(w1, e1, k1) := handle_chunk transport before w in
     let '(w2, e2, k2) := handle_chunk transport after w1 in
     (w2, e1 ++ e2, k1 ++ k2)).
Proof.
  revert w; induction before as [|[msg qr] before IH]; intros w;
    cbn [handle_chunk app].
  - by destruct (handle_chunk transport after w) as [[w2 e2] k2].
  - destruct (handleMessage msg transport qr w) as [w0 e0]. rewrite IH.
    destruct (handle_chunk transport before w0) as [[w1 e1] k1].
    destruct (handle_chunk transport after w1) as [[w2 e2] k2].
    by rewrite !app_assoc.
Qed.

(** X24. A [start_session] that is rejected as a duplicate leaves no
    trace but its reply.  Whatever the chunk brought before it and brings
    after it, and whatever the event loop delivers next, the server ends
    in the state it would have ended in without that message and sends
    what it would have sent, with the one [error] event at the place of
    the message.  The id has to be registered when the message is
    handled, that is in the state that the messages before it in the
    chunk leave, the continuations of [closeSession] not yet run. *)
Theorem duplicate_start_undisturbed
    (w : World) (config : StartSessionConfig) (transport : nat)
    (qr : QueryResult) (ref : nat)
    (before after : list (InboundMessage * QueryResult))
    (rest : list ServerInput) :
  sessions (handle_chunk transport before w).1.1 !! cfg_sessionId config
    = Some ref →
  let reply :=
    transport_send transport
      (ErrorEvent (cfg_sessionId config)
         ("Session '" +:+ cfg_sessionId config +:+ "' already exists")
         None) in
  let without := serve (on_data transport (before ++ after) :: rest) w in
  let sent_before := (handle_chunk transport before w).1.2 in
  ∃ sent_after,
    without.2 = sent_before ++ sent_after
    ∧ serve (on_data transport
               (before ++ (StartSessionMessage config, qr) :: after) :: rest)
        w
      = (without.1, sent_before ++ reply :: sent_after).
Proof.
  intros Hreg reply without sent_before. unfold without, sent_before.
  cbn [serve server_step]. rewrite !handle_chunk_app.
  destruct (handle_chunk transport before w) as [[wb eb] kb].
  cbn [fst snd] in Hreg |- *. cbn [handle_chunk handleMessage continuations].
  rewrite (startSession_registered wb config transport qr ref Hreg).
  destruct (handle_chunk transport after wb) as [[wa ea] ka].
  cbn [app].
  destruct (serve rest (run_microtasks (kb ++ ka) wa)) as [wr er].
  cbn [fst snd]. exists (ea ++ er). split; [by rewrite app_assoc|].
  f_equal. by rewrite <- app_assoc.
Qed.

End MoreServerFacts.

(** ** The terminal front end *)

Section CliFacts.
Import Js Protocol AgentSession Cli.

Lemma truncate_length (s : jsstring) (max : Z) :
  (3 ≤ max)%Z → (Z.of_nat (length (truncate s max)) ≤ max)%Z.
Proof.
  intros Hmax. unfold truncate.
  destruct (Z.ltb_spec max (Z.of_nat (length s))); [|lia].
  unfold slice. rewrite length_app, length_take, length_drop.
  change (length (lit "...")) with 3.
  rewrite (proj2 (Z.ltb_ge 0 0)) by lia.
  rewrite (proj2 (Z.ltb_ge (max - 3) 0)) by lia. lia.
Qed.

(** X25. [truncate(s, max)] with [max] at least 3, as it is called,
    gives a string of at most [max] code units: [s] itself when it is
    that short, and else the first [max - 3] code units of [s] followed
    by three dots. *)
Theorem truncate_bounded (s : jsstring) (max : Z) :
  (3 ≤ max)%Z →
  (Z.of_nat (length (truncate s max)) ≤ max)%Z
  ∧ truncate s max =
      if (max <? Z.of_nat (length s))%Z
      then take (Z.to_nat (max - 3)) s ++ lit "..."
      else s.
Proof.
  intros Hmax. split; [by apply truncate_length|].
  unfold truncate. destruct (Z.ltb_spec max (Z.of_nat (length s))); [|done].
  unfold slice. rewrite (proj2 (Z.ltb_ge 0 0)) by lia.
  rewrite (proj2 (Z.ltb_ge (max - 3) 0)) by lia.
  f_equal. cbn [Z.to_nat drop].
  rewrite Z.min_l, Z.min_l, Z.max_l by lia. f_equal. lia.
Qed.

Section Platform.
Variable String_of : Json → jsstring.
Variable JSON_stringify : Json → jsstring.
Variable toLowerCase : jsstring → jsstring.

(** X26. The summary of a tool input that the terminal shows is at most
    120 code units long for [Bash] and for every tool that the function
    does not know by name, whatever the input is. *)
Theorem summarizeToolInput_bounded (toolName : string) (input : Json) :
  toolName ∉ ["Read"; "Write"; "Edit"; "Glob"; "Grep"; "WebFetch"] →
  length (summarizeToolInput String_of JSON_stringify toolName input) ≤ 120.
Proof.
  intros Hname.
  assert (Htr : ∀ s, length (truncate s 120) ≤ 120).
  { intros s. pose proof (truncate_length s 120). lia. }
  assert (Hne : ∀ name,
    name ∈ ["Read"; "Write"; "Edit"; "Glob"; "Grep"; "WebFetch"] →
    String.eqb toolName name = false).
  { intros name Hin. apply String.eqb_neq. by intros ->. }
  unfold summarizeToolInput.
  destruct input; cbn [length]; try lia;
    rewrite (Hne "Read"), (Hne "Write"), (Hne "Edit"), (Hne "Glob"),
      (Hne "Grep"), (Hne "WebFetch")
      by (repeat first [apply list_elem_of_here|apply list_elem_of_further]);
    destruct (String.eqb toolName "Bash"); apply Htr.
Qed.

(** X27. The answer to a permission prompt on the terminal resolves the
    pending request it was asked for, once: with a deny decision whose
    message is [Denied by user] when the answer is [n] up to white space
    around it and to case, and for every other answer, the empty one
    too, with an allow decision that carries the tool input unchanged.
    The request is then no longer pending. *)
Theorem terminal_answer_resolves (requestId : string) (answer : jsstring)
    (s : AgentSession) (pending : PendingRequest) :
  Map_get requestId (pendingRequests s) = Some pending →
  step (promptPermission_answered toLowerCase requestId answer) s =
    (set_pendingRequests (Map_delete requestId (pendingRequests s)) s,
     [Resolve (resolve pending)
        (if bool_decide (toLowerCase (trim answer) = lit "n")
         then Deny "Denied by user"
         else Allow (toolInput pending))]).
Proof.
  intros Hget. unfold promptPermission_answered, step. cbn [enter].
  unfold resolvePermission, bind at 1, this. cbn. rewrite Hget.
  by destruct (bool_decide _).
Qed.

End Platform.

Lemma handleStreamDelta_text (delta : Json) (t : Terminal) :
  handleStreamDelta delta t =
    match text_of_delta delta with
    | Some text =>
        stdout_write text
          (if isStreamingText t then t
           else set_isStreamingText true (stdout_write newline t))
    | None => t
    end.
Proof.
  unfold handleStreamDelta, text_of_delta.
  destruct delta as [| | | | |d]; try done.
  destruct (Map_get "type" d) as [[| | |type| |]|]; try done.
  destruct (Map_get "delta" d) as [[| | | | |inner]|]; try done.
  destruct (String.eqb type "content_block_delta"); cbn [andb].
  - destruct (Map_get "type" inner) as [[| | |inner_type| |]|]; try done.
    destruct (Map_get "text" inner) as [[| | |text| |]|]; try done.
    by destruct (String.eqb inner_type "text_delta").
  - destruct (Map_get "type" inner) as [[| | |inner_type| |]|]; try done.
    by destruct (Map_get "text" inner) as [[| | |text| |]|].
Qed.

Lemma deltas_streaming (deltas : list Json) (out : list string) :
  foldl (flip handleStreamDelta)
    {| isStreamingText := true; stdout := out |} deltas
  = {| isStreamingText := true;
       stdout := out ++ omap text_of_delta deltas |}.
Proof.
  revert out; induction deltas as [|delta deltas IH]; intros out;
    cbn [foldl flip].
  { by rewrite app_nil_r. }
  rewrite handleStreamDelta_text.
  change (delta :: deltas) with ([delta] ++ deltas). rewrite omap_app.
  cbn [omap list_omap]. destruct (text_of_delta delta) as [text|].
  - unfold stdout_write. cbn [isStreamingText stdout].
    rewrite IH. cbn. by rewrite <- app_assoc.
  - by rewrite IH.
Qed.

(** X28. Streamed text on the terminal is set off by line breaks: from a
    terminal that is not streaming, a run of stream deltas followed by
    [finishStreaming] writes a line break, the texts of the text deltas
    in order and a line break if there was a text delta, and nothing at
    all otherwise; the terminal is not streaming afterwards, so a second
    [finishStreaming] writes nothing. *)
Theorem streamed_text_bracketed (deltas : list Json) (out : list string) :
  let t := finishStreaming
             (foldl (flip handleStreamDelta)
                {| isStreamingText := false; stdout := out |} deltas) in
  isStreamingText t = false
  ∧ stdout t = out ++ match omap text_of_delta deltas with
                      | [] => []
                      | texts => newline :: texts ++ [newline]
                      end
  ∧ finishStreaming t = t.
Proof.
  revert out; induction deltas as [|delta deltas IH]; intros out.
  { cbn. by rewrite app_nil_r. }
  cbn [foldl flip]. rewrite handleStreamDelta_text.
  change (delta :: deltas) with ([delta] ++ deltas). rewrite omap_app.
  cbn [omap list_omap]. destruct (text_of_delta delta) as [text|].
  - unfold stdout_write, set_isStreamingText. cbn [isStreamingText stdout].
    rewrite deltas_streaming. cbn.
    split; [done|]. split; [|done]. by rewrite <- !app_assoc.
  - apply IH.
Qed.




End CliFacts.

(** ** The command line *)

Section IndexFacts.
Import Js Index.

Lemma split_head (sep : N) (s : jsstring) :
  ∃ parts,
    split sep s = take (default (length s) (indexOf sep s)) s :: parts.
Proof.
  induction s as [|c s [parts IH]]; [by exists []|].
  cbn [split indexOf]. case_decide as Hc.
  - subst c. rewrite N.eqb_refl. by eexists.
  - rewrite (proj2 (N.eqb_neq c sep)) by done. rewrite IH.
    exists parts. by destruct (indexOf sep s).
Qed.

Lemma find_skip (f : jsstring → bool) (before rest : list jsstring) :
  Forall (λ a, f a = false) before →
  List.find f (before ++ rest) = List.find f rest.
Proof.
  induction 1 as [|a before Ha _ IH]; [done|]. cbn. by rewrite Ha.
Qed.

(** X30. The socket path of server mode is taken from the first
    argument that starts with [--socket=]: it is what follows that
    prefix, up to the next [=] if there is one, so it never holds an
    [=], and it is the empty string when nothing follows the prefix.
    The default path is used when no argument starts with [--socket=]. *)
Theorem socket_option_first_wins (before after : list jsstring)
    (p : jsstring) :
  Forall (λ a, startsWith a (lit "--socket=") = false) before →
  let path := socketPath (before ++ (lit "--socket=" ++ p) :: after) in
  path = take (default (length p) (indexOf EQ p)) p
  ∧ (EQ ∉ path)
  ∧ ((EQ ∉ p) → path = p)
  ∧ socketPath before = DEFAULT_SOCKET_PATH.
Proof.
  intros Hbefore path.
  assert (Hpath : path = take (default (length p) (indexOf EQ p)) p).
  { unfold path, socketPath. rewrite find_skip by done.
    cbn [List.find]. unfold startsWith at 1.
    rewrite bool_decide_eq_true_2 by apply (take_app_length (lit "--socket=")).
    destruct (split_head EQ p) as [parts Hp].
    replace (split EQ (lit "--socket=" ++ p))
      with (lit "--socket" :: split EQ p) by (cbn; by rewrite Hp).
    by rewrite Hp. }
  split; [done|]. split; [|split].
  - rewrite Hpath. destruct (indexOf EQ p) as [i|] eqn:Hidx; cbn.
    + apply indexOf_Some in Hidx as (l & r & -> & Hnot & <-).
      by rewrite take_app_length.
    + rewrite firstn_all. by apply indexOf_None_inv.
  - intros Hno. rewrite Hpath.
    destruct (indexOf EQ p) as [i|] eqn:Hidx; cbn; [|apply firstn_all].
    apply indexOf_Some in Hidx as (l & r & -> & _ & _).
    destruct Hno. apply elem_of_app. right. apply list_elem_of_here.
  - unfold socketPath. rewrite <- (app_nil_r before).
    by rewrite find_skip.
Qed.

End IndexFacts.

(** ** The properties at work on concrete inputs *)

Section Witnesses.
Import Js Protocol AgentSession AgentServer Sample.

(** a code unit does not occur in a given text *)
Local Ltac absent :=
  let H := fresh in
  intros H; vm_compute in H;
  repeat (apply elem_of_cons in H as [H|H]; [discriminate H|]);
  by apply elem_of_nil in H.

(** the text [oops], then [ true ], an empty line and [false], each
    ended by a line feed, arriving in four chunks that cut across the
    lines *)
Lemma framer_malformed_line_then_valid_lines_witness :
  ∃ evs,
    NdjsonTransport.feed BoolJson.JSON_parse BoolJson.toString_utf8
      (NdjsonTransport.new_Transport
         {| NdjsonTransport.destroyed := false;
            NdjsonTransport.ended := false;
            NdjsonTransport.written := [] |})
      [BoolJson.bytes "oo";
       BoolJson.bytes "ps" ++ [x0a] ++ BoolJson.bytes " tr";
       BoolJson.bytes "ue " ++ [x0a; x0a] ++ BoolJson.bytes "fal";
       BoolJson.bytes "se" ++ [x0a]]
    = (evs,
       NdjsonTransport.new_Transport
         {| NdjsonTransport.destroyed := false;
            NdjsonTransport.ended := false;
            NdjsonTransport.written := [] |})
    ∧ evs = NdjsonTransport.error (lit "Invalid JSON: oops")
              :: (NdjsonTransport.message <$> [true; false])
    ∧ length (filter NdjsonTransport.is_message evs) = 2
    ∧ length (filter NdjsonTransport.is_error evs) = 1
    ∧ NdjsonTransport.close ∉ evs.
Proof.
  apply (framer_malformed_line_then_valid_lines BoolJson.JSON_parse
           BoolJson.toString_utf8 _ (lit "oops")
           [NdjsonTransport.valid_segment (lit " true ") true;
            NdjsonTransport.blank_segment [];
            NdjsonTransport.valid_segment (lit "false") false]).
  - split; [absent|]. by vm_compute.
  - repeat constructor; try absent; by vm_compute.
  - by repeat constructor.
  - reflexivity.
Defined.

Lemma ndjson_send_then_parse_witness :
  NdjsonTransport.feed BoolJson.JSON_parse BoolJson.toString_utf8
    (NdjsonTransport.new_Transport
       {| NdjsonTransport.destroyed := false;
          NdjsonTransport.ended := false;
          NdjsonTransport.written := [] |})
    [BoolJson.bytes "tr"; BoolJson.bytes "ue" ++ [x0a] ++ BoolJson.bytes "false";
     [x0a]]
  = (NdjsonTransport.message <$> [true; false],
     NdjsonTransport.new_Transport
       {| NdjsonTransport.destroyed := false;
          NdjsonTransport.ended := false;
          NdjsonTransport.written := [] |}).
Proof.
  apply (ndjson_send_then_parse BoolJson.JSON_parse BoolJson.toString_utf8
           BoolJson.JSON_stringify)
    with (sender := NdjsonTransport.new_Transport
                      {| NdjsonTransport.destroyed := false;
                         NdjsonTransport.ended := false;
                         NdjsonTransport.written := [] |}).
  - by intros [].
  - intros []; absent.
  - by intros [].
  - reflexivity.
  - reflexivity.
  - reflexivity.
Defined.

Lemma resolve_at_most_once_witness :
  ∃ r s1,
    step (call_resolvePermission "req_1" deny None None) parked_session
      = (s1, [Resolve 0 r])
    ∧ Map_get "req_1" (pendingRequests s1) = None
    ∧ step (call_resolveQuestion "req_1" []) s1 = (s1, []).
Proof.
  apply (resolve_at_most_once parked_session "req_1"
           (call_resolvePermission "req_1" deny None None)
           (call_resolveQuestion "req_1" []));
    reflexivity.
Defined.

Lemma engine_exception_then_idle_witness :
  ∃ before s',
    enter (engine_next (Reject (Error "boom"))) parked_session =
      (Normal tt, s',
       before ++ [Send (ErrorEvent "s1" "boom" None);
                  Send (SessionStatusEvent "s1" idle)])
    ∧ last (statuses (step (engine_next (Reject (Error "boom")))
                        parked_session).2) = Some idle
    ∧ activeQuery s' = None
    ∧ sessionId s' = "s1"
    ∧ pendingRequests s' = pendingRequests parked_session
    ∧ claudeSessionId s' = None
    ∧ ∀ (w : World) (ref : nat),
        objects w !! ref = Some parked_session →
        sessions
          (call_session ref (engine_next (Reject (Error "boom"))) w).1
          = sessions w
        ∧ objects
            (call_session ref (engine_next (Reject (Error "boom"))) w).1
            !! ref = Some s'.
Proof.
  apply (engine_exception_then_idle parked_session
           (engine_next (Reject (Error "boom"))) (Error "boom")).
  reflexivity.
Defined.

Lemma start_session_duplicate_rejected_witness :
  handleMessage (StartSessionMessage start_s1) 1 (Created 5)
    one_session_world =
    (one_session_world,
     [transport_send 1 (ErrorEvent "s1" "Session 's1' already exists" None)]).
Proof.
  apply (start_session_duplicate_rejected one_session_world start_s1 1
           (Created 5) 0).
  reflexivity.
Defined.

Lemma unknown_session_dropped_or_reported_witness :
  (best_effort (InterruptMessage "s2") = true →
     handleMessage (InterruptMessage "s2") 1 (Created 5) one_session_world =
       (one_session_world,
        [console_error "[server] session 's2' not found"])
     ∧ ∀ t, omap (sent_to t)
              (handleMessage (InterruptMessage "s2") 1 (Created 5)
                 one_session_world).2 = [])
  ∧ (∀ sid, InterruptMessage "s2" = CloseSessionMessage sid →
       handleMessage (InterruptMessage "s2") 1 (Created 5)
         one_session_world =
         (one_session_world,
          [transport_send 1
             (ErrorEvent sid ("Session '" +:+ sid +:+ "' not found")
                None)])).
Proof.
  apply (unknown_session_dropped_or_reported one_session_world
           (InterruptMessage "s2") 1 (Created 5)).
  reflexivity.
Defined.

Lemma resume_session_overwrites_registered_witness :
  sessions
    (handleMessage (ResumeSessionMessage "s1" "conv-9" "go on" "/tmp") 1
       (Created 5) one_session_world).1 !! "s1"
    = Some (fresh (dom (objects one_session_world)))
  ∧ objects
      (handleMessage (ResumeSessionMessage "s1" "conv-9" "go on" "/tmp") 1
         (Created 5) one_session_world).1 !! 0
    = Some parked_session.
Proof.
  pose proof (resume_session_overwrites_registered one_session_world
                "s1" "conv-9" "go on" "/tmp" 1 (Created 5) 0 parked_session
                eq_refl eq_refl) as H.
  cbv zeta in H. destruct H as (_ & _ & Hreg & Hobj & _).
  split; [exact Hreg|exact Hobj].
Defined.

End Witnesses.

(** ** The further theorems at concrete inputs *)

Section MoreWitnesses.
Import Js Protocol AgentSession AgentServer Sample SessionReading
  ServerReading Cli Index.

(** an element does not occur in a given list *)
Local Ltac not_among :=
  let H := fresh in
  intros H; vm_compute in H;
  repeat (apply elem_of_cons in H as [H|H]; [discriminate H|]);
  by apply elem_of_nil in H.

Lemma one_session_world_ok : registry_ok one_session_world.
Proof.
  intros sid ref Hreg. cbn in Hreg.
  apply lookup_singleton_Some in Hreg as [<- <-].
  by exists parked_session.
Qed.

(** two decisions asked for in a row, a permission and a question *)
Lemma decisions_resolved_at_most_once_witness :
  NoDup (resolved
           (run [engine_canUseTool "Bash" [("command", JStr "ls")]
                   {| suggestions := None; toolUseID := "toolu_1" |} 0;
                 engine_canUseTool "AskUserQuestion" []
                   {| suggestions := None; toolUseID := "toolu_2" |} 1;
                 call_resolvePermission "req_1" allow None None;
                 call_resolvePermission "req_1" deny None None;
                 call_close]
              (new_AgentSession "s1" (to_transport 0) "/tmp")).2).
Proof.
  apply (decisions_resolved_at_most_once "s1" (to_transport 0) "/tmp").
  apply NoDup_cons. split; [not_among|]. apply NoDup_singleton.
Defined.

Lemma resolved_id_stays_resolved_witness :
  let s2 := (run [call_interrupt]
               (step (call_resolvePermission "req_1" deny None None)
                  parked_session).1).1 in
  step (call_resolveQuestion "req_1" []) s2 = (s2, []).
Proof.
  apply (resolved_id_stays_resolved "s1" (to_transport 0) "/tmp"
           [engine_canUseTool "Bash" [("command", JStr "ls")]
              {| suggestions := None; toolUseID := "toolu_1" |} 0]
           [call_interrupt] "req_1"
           (call_resolvePermission "req_1" deny None None)
           (call_resolveQuestion "req_1" [])
           {| resolve := 0; toolInput := [("command", JStr "ls")] |});
    reflexivity.
Defined.

Lemma announced_ids_distinct_witness :
  NoDup (announced
           (run [engine_canUseTool "Bash" [("command", JStr "ls")]
                   {| suggestions := None; toolUseID := "toolu_1" |} 0;
                 call_resolvePermission "req_1" allow None None;
                 engine_canUseTool "AskUserQuestion" []
                   {| suggestions := None; toolUseID := "toolu_2" |} 1]
              (new_AgentSession "s1" (to_transport 0) "/tmp")).2).
Proof.
  apply (announced_ids_distinct
           [engine_canUseTool "Bash" [("command", JStr "ls")]
              {| suggestions := None; toolUseID := "toolu_1" |} 0;
            call_resolvePermission "req_1" allow None None;
            engine_canUseTool "AskUserQuestion" []
              {| suggestions := None; toolUseID := "toolu_2" |} 1]
           (new_AgentSession "s1" (to_transport 0) "/tmp")).
  reflexivity.
Defined.

Lemma other_calls_leave_pending_witness :
  let cs := [call_sendPrompt "again" (Created 3); engine_next Return;
             call_interrupt] in
  pendingRequests (run cs parked_session).1 = pendingRequests parked_session
  ∧ requestCounter (run cs parked_session).1 = requestCounter parked_session
  ∧ resolved (run cs parked_session).2 = []
  ∧ announced (run cs parked_session).2 = [].
Proof.
  apply (other_calls_leave_pending
           [call_sendPrompt "again" (Created 3); engine_next Return;
            call_interrupt] parked_session).
  by repeat constructor.
Defined.

Lemma run_ends_idle_witness :
  ∃ before,
    (run ([call_interrupt] ++ [engine_next (Reject (Error "boom"))])
       parked_session).2 =
      before
        ++ [Send (ErrorEvent (sessionId (run [call_interrupt] parked_session).1)
                    (error_text (Error "boom")) None);
            Send (SessionStatusEvent
                    (sessionId (run [call_interrupt] parked_session).1) idle)].
Proof.
  apply (run_ends_idle [call_interrupt] parked_session
           (engine_next (Reject (Error "boom"))) (Error "boom")).
  reflexivity.
Defined.

(** the line [true] in two chunks and in one *)
Lemma chunking_is_irrelevant_witness :
  let t := NdjsonTransport.new_Transport
             {| NdjsonTransport.destroyed := false;
                NdjsonTransport.ended := false;
                NdjsonTransport.written := [] |} in
  NdjsonTransport.feed BoolJson.JSON_parse BoolJson.toString_utf8 t
    [BoolJson.bytes "tr"; BoolJson.bytes "ue" ++ [x0a]]
  = NdjsonTransport.feed BoolJson.JSON_parse BoolJson.toString_utf8 t
      [BoolJson.bytes "true" ++ [x0a]].
Proof.
  apply (chunking_is_irrelevant BoolJson.JSON_parse BoolJson.toString_utf8).
  - not_among.
  - reflexivity.
Defined.

Lemma replies_carry_the_addressed_id_witness :
  Forall (effect_scoped "s1")
    (handleMessage (CloseSessionMessage "s1") 1 (Created 5)
       one_session_world).2.
Proof.
  apply (replies_carry_the_addressed_id (CloseSessionMessage "s1") 1
           (Created 5) one_session_world).
  apply one_session_world_ok.
Defined.

Lemma start_session_fresh_registers_witness :
  let config :=
    {| cfg_sessionId := "s2"; cfg_cwd := "/tmp"; cfg_prompt := "hi";
       cfg_systemPrompt := None; cfg_model := None;
       cfg_permissionMode := None; cfg_allowedTools := None;
       cfg_settingSources := None |} in
  let ref := fresh (dom (objects one_session_world)) in
  let s0 := new_AgentSession "s2" (to_transport 1) "/srv" in
  objects one_session_world !! ref = None
  ∧ handleMessage (StartSessionMessage config) 1 (Created 5)
      one_session_world =
      ({| sessions := <["s2" := ref]> (sessions one_session_world);
          transports := transports one_session_world;
          objects := <[ref := (step (call_start config (Created 5)) s0).1]>
                       (objects one_session_world);
          process_cwd := "/srv" |},
       session_effect ref (to_transport 1)
         <$> (step (call_start config (Created 5)) s0).2).
Proof.
  apply (start_session_fresh_registers
           {| cfg_sessionId := "s2"; cfg_cwd := "/tmp"; cfg_prompt := "hi";
              cfg_systemPrompt := None; cfg_model := None;
              cfg_permissionMode := None; cfg_allowedTools := None;
              cfg_settingSources := None |} 1 (Created 5) one_session_world).
  reflexivity.
Defined.

(** a permission response that comes in on connection 1 for a session
    bound to connection 0 *)
Lemma commands_answered_on_session_sink_witness :
  let msg := PermissionResponseMessage "s1" "req_1" deny None None in
  omap (sent_to 1) (handleMessage msg 1 (Created 5) one_session_world).2 = []
  ∧ sessions (handleMessage msg 1 (Created 5) one_session_world).1
    = sessions one_session_world.
Proof.
  pose proof (commands_answered_on_session_sink
                (PermissionResponseMessage "s1" "req_1" deny None None) 1
                (Created 5) one_session_world 0 parked_session
                eq_refl eq_refl eq_refl) as H.
  cbv zeta in H. destruct H as (_ & Hsink & Hreg & _).
  split; [|exact Hreg]. by apply (Hsink 0).
Defined.

Lemma close_session_unregisters_after_await_witness :
  let w1 := (closeSession_call "s1" 1 one_session_world).1 in
  sessions w1 = sessions one_session_world
  ∧ handleMessage (StartSessionMessage start_s1) 0 (Created 5) w1 =
      (w1, [transport_send 0
              (ErrorEvent "s1" "Session 's1' already exists" None)])
  ∧ server_step
      (on_data 1 [(CloseSessionMessage "s1", Created 4);
                  (StartSessionMessage start_s1, Created 5)])
      one_session_world
    = (closeSession_resumed "s1" w1,
       (closeSession_call "s1" 1 one_session_world).2
         ++ [transport_send 1
               (ErrorEvent "s1" "Session 's1' already exists" None)])
  ∧ sessions (closeSession_resumed "s1" w1)
    = delete "s1" (sessions one_session_world).
Proof.
  pose proof (close_session_unregisters_after_await "s1" 1
                one_session_world 0 parked_session eq_refl eq_refl) as H.
  cbv zeta in H.
  destruct H as (_ & Hreg & _ & Hstart & _ & Hchunk & Hdel & _).
  split; [exact Hreg|].
  split; [exact (Hstart start_s1 0 (Created 5) eq_refl)|].
  split; [exact (Hchunk start_s1 (Created 4) (Created 5) eq_refl)|].
  exact Hdel.
Defined.

(** the duplicate comes behind a [close_session] for its id, in the same
    chunk, and an [interrupt] follows in the next *)
Lemma duplicate_start_undisturbed_witness :
  let before := [(CloseSessionMessage "s1", Created 3)] in
  let rest := [on_message 1 (InterruptMessage "s1") (Created 5)] in
  let without := serve (on_data 1 (before ++ []) :: rest) one_session_world in
  ∃ sent_after,
    without.2 = (handle_chunk 1 before one_session_world).1.2 ++ sent_after
    ∧ serve (on_data 1 (before ++ [(StartSessionMessage start_s1, Created 4)])
               :: rest) one_session_world
      = (without.1,
         (handle_chunk 1 before one_session_world).1.2
           ++ transport_send 1
                (ErrorEvent "s1" "Session 's1' already exists" None)
           :: sent_after).
Proof.
  apply (duplicate_start_undisturbed one_session_world start_s1 1
           (Created 4) 0 [(CloseSessionMessage "s1", Created 3)] []
           [on_message 1 (InterruptMessage "s1") (Created 5)]).
  reflexivity.
Defined.

Lemma truncate_bounded_witness :
  (Z.of_nat (length (truncate (lit "abcdefghij") 8)) ≤ 8)%Z
  ∧ truncate (lit "abcdefghij") 8 = lit "abcde...".
Proof. apply (truncate_bounded (lit "abcdefghij") 8). lia. Defined.

Lemma summarizeToolInput_bounded_witness :
  length (summarizeToolInput (λ _, lit "ls -la") (λ _, lit "{}") "Bash"
            (JObj [("command", JStr "ls -la")])) ≤ 120.
Proof.
  apply (summarizeToolInput_bounded (λ _, lit "ls -la") (λ _, lit "{}")
           "Bash" (JObj [("command", JStr "ls -la")])).
  not_among.
Defined.

(** the answer [ n ], with a function that leaves lower case as it is *)
Lemma terminal_answer_resolves_witness :
  step (promptPermission_answered (λ text, text) "req_1" (lit " n "))
    parked_session =
    (set_pendingRequests
       (Map_delete "req_1" (pendingRequests parked_session)) parked_session,
     [Resolve 0 (Deny "Denied by user")]).
Proof.
  apply (terminal_answer_resolves (λ text, text) "req_1" (lit " n ")
           parked_session
           {| resolve := 0; toolInput := [("command", JStr "ls")] |}).
  reflexivity.
Defined.

Lemma socket_option_first_wins_witness :
  let path := socketPath [lit "--server"; lit "--socket=/run/a.sock";
                          lit "--socket=/run/b.sock"] in
  path = lit "/run/a.sock"
  ∧ (EQ ∉ path)
  ∧ ((EQ ∉ lit "/run/a.sock") → path = lit "/run/a.sock")
  ∧ socketPath [lit "--server"] = DEFAULT_SOCKET_PATH.
Proof.
  apply (socket_option_first_wins [lit "--server"]
           [lit "--socket=/run/b.sock"] (lit "/run/a.sock")).
  by repeat constructor.
Defined.

End MoreWitnesses.
